(** * The rule activation engine (src/components/utils/RuleActivationEngine.ts)

    A shallow embedding of the class [RuleActivationEngine] and the proofs of
    the properties its specification states about it.

    Modelling conventions.
    - A JavaScript number is an integer of [Z]: turn numbers, counts, token
      weights, priorities and depths are integers in every use the engine
      makes of them (no NaN, no infinities, no fractions).
    - A JavaScript string is the sequence of its code units, kept below 256
      (Rocq's [ascii]); on that range [toLowerCase], [trim] and the regular
      expression classes below are the ones of ECMAScript.
    - An optional field ([x?: T]) is an [option]; [undefined] is [None].
    - The rules handed to [processRules] are JavaScript objects that the
      engine mutates in place: they live in a store ([gmap loc CustomRule.t])
      and the array of rules is a list of references into it.
    - [Math.random] is a stream of rationals and a count of the draws made.
    - [console.log] is a list of events, one per rule the loop reports on. *)

From Stdlib Require Import ZArith String Ascii List Sorted.
From Stdlib Require QArith.
From stdpp Require Import base gmap strings list pretty.

Local Open Scope Z_scope.

(** ** JavaScript values *)

Module JS.

(** [x || d] on an optional number: [undefined] and [0] are falsy. *)
Definition orNum (x : option Z) (d : Z) : Z :=
  match x with
  | Some v => if v =? 0 then d else v
  | None => d
  end.

(** Truthiness of an optional number. *)
Definition truthyNum (x : option Z) : bool :=
  match x with
  | Some v => negb (v =? 0)
  | None => false
  end.

(** Truthiness of an optional boolean. *)
Definition truthy (x : option bool) : bool :=
  match x with
  | Some b => b
  | None => false
  end.

(** [a || b] on optional booleans: [a] when it is [true], else [b]. *)
Definition orBool (a b : option bool) : option bool :=
  if truthy a then a else b.

(** [x !== false]. *)
Definition notFalse (x : option bool) : bool :=
  match x with
  | Some false => false
  | _ => true
  end.

(** Truthiness of a string: the empty string is falsy. *)
Definition nonEmpty (s : string) : bool :=
  match s with
  | EmptyString => false
  | String _ _ => true
  end.

Definition truthyStr (x : option string) : bool :=
  match x with
  | Some s => nonEmpty s
  | None => false
  end.

(** [x || d] on an optional string. *)
Definition orStr (x : option string) (d : string) : string :=
  match x with
  | Some s => if nonEmpty s then s else d
  | None => d
  end.

Definition inRange (lo hi n : N) : bool := ((lo <=? n) && (n <=? hi))%N.

(** WhiteSpace and LineTerminator code units below 256. *)
Definition isWhiteSpace (c : ascii) : bool :=
  let n := N_of_ascii c in
  inRange 9 13 n || (n =? 32)%N || (n =? 160)%N.

(** [\w] of a regular expression without the [u] flag. *)
Definition isWordChar (c : ascii) : bool :=
  let n := N_of_ascii c in
  inRange 48 57 n || inRange 65 90 n || (n =? 95)%N || inRange 97 122 n.

Definition toLowerCaseChar (c : ascii) : ascii :=
  let n := N_of_ascii c in
  if inRange 65 90 n || (inRange 192 222 n && negb (n =? 215)%N)
  then ascii_of_N (n + 32)
  else c.

Fixpoint toLowerCase (s : string) : string :=
  match s with
  | EmptyString => EmptyString
  | String c s' => String (toLowerCaseChar c) (toLowerCase s')
  end.

Fixpoint trimStart (s : string) : string :=
  match s with
  | EmptyString => EmptyString
  | String c s' => if isWhiteSpace c then trimStart s' else s
  end.

Fixpoint trimEnd (s : string) : string :=
  match s with
  | EmptyString => EmptyString
  | String c s' =>
      let t := trimEnd s' in
      if isWhiteSpace c && negb (nonEmpty t) then EmptyString else String c t
  end.

Definition trim (s : string) : string := trimEnd (trimStart s).

(** [s.includes(sub)]. *)
Fixpoint includes (s sub : string) : bool :=
  String.prefix sub s ||
  match s with
  | EmptyString => false
  | String _ s' => includes s' sub
  end.

(** [l.join(sep)]. *)
Fixpoint join (sep : string) (l : list string) : string :=
  match l with
  | [] => EmptyString
  | [x] => x
  | x :: rest => x +:+ sep +:+ join sep rest
  end.

(** [l.slice(start)]: a negative [start] counts from the end. *)
Definition slice {A} (start : Z) (l : list A) : list A :=
  let len := Z.of_nat (length l) in
  let k := if start <? 0 then Z.max (len + start) 0 else Z.min start len in
  drop (Z.to_nat k) l.

(** [Math.ceil(n / 4)] for a length [n]. *)
Definition ceilDiv4 (n : nat) : Z := (Z.of_nat n + 3) / 4.

(** Whether the code unit at position [p] is a word character; there is
    none before the start and after the end of the text. *)
Definition wordAt (text : string) (p : nat) : bool :=
  match String.get p text with
  | Some c => isWordChar c
  | None => false
  end.

(** The assertion [\b] at position [p]. *)
Definition wordBoundary (text : string) (p : nat) : bool :=
  xorb (match p with O => false | S q => wordAt text q end) (wordAt text p).

(** [keyword] is read in [text] from position [p] on. *)
Definition occursAt (text keyword : string) (p : nat) : bool :=
  String.eqb (String.substring p (String.length keyword) text) keyword.

(** The test [new RegExp(`\\b${escaped}\\b`, flags).test(text)], where
    [escaped] is [escapeRegex(keyword)]: every character that is special in
    a pattern is escaped, so the pattern reads the keyword and nothing else,
    and the test asks for an occurrence of the keyword with a word boundary
    on each side.  The engine passes the [i] flag only together with a text
    and a keyword that are already in lower case, where it changes nothing. *)
Definition wholeWordTest (text keyword : string) : bool :=
  existsb
    (fun p => occursAt text keyword p
              && wordBoundary text p
              && wordBoundary text (p + String.length keyword)%nat)
    (seq 0 (S (String.length text))).

End JS.

(** ** Data model *)

(** A reference to a rule object in the store. *)
Abbreviation loc := nat (only parsing).

(** Modelled from the spec: the declaration of [enum RuleLogic] is in
    types.ts, which is not among the sources.  The engine names its four
    members (and the spec lists four logic modes); their numeric values are
    a parameter of the development, [RuleLogic_value] below. *)
Inductive RuleLogic := AND_ANY | AND_ALL | NOT_ALL | NOT_ANY.

(** The reverse mapping [RuleLogic[logic]] of a numeric enum. *)
Definition RuleLogic_name (l : RuleLogic) : string :=
  match l with
  | AND_ANY => "AND_ANY"
  | AND_ALL => "AND_ALL"
  | NOT_ALL => "NOT_ALL"
  | NOT_ANY => "NOT_ANY"
  end.

(** Modelled from the spec: the interface [CustomRule] is declared in
    types.ts, which is not among the sources.  The record has the fields the
    engine reads or writes, named as it names them; a field is optional
    where the engine tests it against [undefined] or [false], or falls back
    with [||] or [?.]. *)
Module CustomRule.
Record t := mk {
  id : string;
  title : option string;
  content : string;
  isActive : bool;
  keywords : option (list string);
  secondaryKeywords : option (list string);
  logic : option RuleLogic;
  alwaysActive : option bool;
  caseSensitive : option bool;
  matchWholeWords : option bool;
  scanDepth : option Z;
  scanPlayerInput : option bool;
  scanAIOutput : option bool;
  scanMemories : option bool;
  tokenWeight : option Z;
  probability : option Z;
  maxActivationsPerTurn : option Z;
  order : option Z;
  lastActivated : option Z;
  activationCount : option Z
}.

(** The two assignments [rule.lastActivated = turn] and
    [rule.activationCount = n]. *)
Definition setMetadata (turn n : Z) (r : t) : t :=
  mk (id r) (title r) (content r) (isActive r) (keywords r)
     (secondaryKeywords r) (logic r) (alwaysActive r) (caseSensitive r)
     (matchWholeWords r) (scanDepth r) (scanPlayerInput r) (scanAIOutput r)
     (scanMemories r) (tokenWeight r) (probability r)
     (maxActivationsPerTurn r) (order r) (Some turn) (Some n).
End CustomRule.

(** Modelled from the spec: the interface [GameHistoryEntry] is declared in
    types.ts, which is not among the sources.  An entry has a role, 'user'
    or 'model' where the engine tests it, and parts that each have a text. *)
Module Part.
Record t := mk { text : string }.
End Part.

Module GameHistoryEntry.
Record t := mk { role : string; parts : list Part.t }.
End GameHistoryEntry.

(** Modelled from the spec: the interface [Memory] is declared in types.ts,
    which is not among the sources.  The engine reads the text, the pinned
    flag and the importance score of a memory. *)
Module Memory.
Record t := mk {
  text : string;
  pinned : option bool;
  importance : option Z
}.
End Memory.

(** [interface ActivationContext], without the field [entities], which the
    engine never reads. *)
Module ActivationContext.
Record t := mk {
  playerInput : option string;
  aiResponse : option string;
  gameHistory : option (list GameHistoryEntry.t);
  memories : option (list Memory.t);
  currentTurn : option Z;
  scanDepth : option Z;
  tokenBudget : option Z;
  caseSensitive : option bool;
  matchWholeWords : option bool
}.
End ActivationContext.

(** [interface ActivatedRule]; its [rule] is a reference to the rule
    object. *)
Module ActivatedRule.
Record t := mk {
  rule : loc;
  activationReason : string;
  matchedKeywords : list string;
  tokenCost : Z;
  priority : Z
}.
End ActivatedRule.

(** [interface ActivationResult] *)
Module ActivationResult.
Record t := mk {
  activatedRules : list ActivatedRule.t;
  totalTokens : Z;
  budgetExceeded : bool;
  skippedRules : list loc
}.
End ActivationResult.

(** What [checkKeywordMatch] and [evaluateRuleLogic] return. *)
Module KeywordMatch.
Record t := mk { matches : bool; matchedKeywords : list string }.
End KeywordMatch.

Module LogicResult.
Record t := mk {
  activated : bool;
  reason : string;
  matchedKeywords : list string
}.
End LogicResult.

(** ** What a call of [processRules] can change *)

(** The per-rule lines the loop of [processRules] writes with
    [console.log]: which rule the line is about and what it reports. *)
Inductive Outcome :=
  | SkippedLimit                 (* activation limit reached *)
  | SkippedProbability           (* probability check failed *)
  | SkippedNoText                (* no text to scan *)
  | SkippedLogic (reason : string) (primary secondary : list string)
  | SkippedBudget                (* would exceed token budget *)
  | Activated (reason : string).

Record LogEvent := Logged { subject : loc; outcome : Outcome }.

(** The rule objects, the engine's private [activationHistory] map, the
    number of values [Math.random] has returned and the console. *)
Record World := mkWorld {
  heap : gmap loc CustomRule.t;
  activationHistory : gmap string (list Z);
  draws : nat;
  console : list LogEvent
}.

(** The state of the loop of [processRules]: the world and the three locals
    [activated], [skipped] and [totalTokens]. *)
Record Pass := mkPass {
  world : World;
  activated : list ActivatedRule.t;
  skipped : list loc;
  totalTokens : Z
}.

Definition log (e : LogEvent) (w : World) : World :=
  mkWorld (heap w) (activationHistory w) (draws w) (console w ++ [e]).

Definition setDraws (n : nat) (w : World) : World :=
  mkWorld (heap w) (activationHistory w) n (console w).

(** [console.log(...skipped...); skipped.push(rule); continue]. *)
Definition skip (l : loc) (o : Outcome) (st : Pass) : Pass :=
  mkPass (log (Logged l o) (world st)) (activated st) (skipped st ++ [l])
         (totalTokens st).

(** [console.log(...); continue], the rule is dropped. *)
Definition dropRule (l : loc) (o : Outcome) (st : Pass) : Pass :=
  mkPass (log (Logged l o) (world st)) (activated st) (skipped st)
         (totalTokens st).

(** Stable sort with a comparator, as [Array.prototype.sort] is: [x] stays
    in front of [y] unless [cmp x y > 0]. *)
Fixpoint insertBy {A} (cmp : A -> A -> Z) (x : A) (l : list A) : list A :=
  match l with
  | [] => [x]
  | y :: l' => if cmp x y <=? 0 then x :: l else y :: insertBy cmp x l'
  end.

Definition sort {A} (cmp : A -> A -> Z) (l : list A) : list A :=
  foldr (insertBy cmp) [] l.

Section Engine.

(** The numeric value of each member of [enum RuleLogic] (types.ts). *)
Variable RuleLogic_value : RuleLogic -> Z.

(** [random n] is what the call number [n] of [Math.random] returns. *)
Variable random : nat -> QArith_base.Q.

(** [estimateTokens] *)
Definition estimateTokens (text : string) : Z :=
  if negb (JS.nonEmpty text) then 0
  else JS.ceilDiv4 (String.length text).

(** [checkKeywordMatch]; the two flags have the default value [false]. *)
Definition keywordFound (searchText : string) (caseSensitive matchWholeWords : bool)
    (keyword : string) : bool :=
  if negb (JS.nonEmpty (JS.trim keyword)) then false
  else
    let searchKeyword := if caseSensitive then keyword else JS.toLowerCase keyword in
    if matchWholeWords then JS.wholeWordTest searchText searchKeyword
    else JS.includes searchText searchKeyword.

Definition checkKeywordMatch (text : string) (keywords : list string)
    (caseSensitive matchWholeWords : option bool) : KeywordMatch.t :=
  let caseSensitive := default false caseSensitive in
  let matchWholeWords := default false matchWholeWords in
  match keywords with
  | [] => KeywordMatch.mk false []
  | _ =>
      let searchText := if caseSensitive then text else JS.toLowerCase text in
      let matchedKeywords :=
        List.filter (keywordFound searchText caseSensitive matchWholeWords) keywords in
      KeywordMatch.mk (0 <? length matchedKeywords)%nat matchedKeywords
  end.

(** [rule.logic || RuleLogic.AND_ANY]: a member whose value is 0 is falsy. *)
Definition logicOf (rule : CustomRule.t) : RuleLogic :=
  match CustomRule.logic rule with
  | Some l => if RuleLogic_value l =? 0 then AND_ANY else l
  | None => AND_ANY
  end.

(** [xs?.length || 0] *)
Definition lengthOr0 (xs : option (list string)) : nat :=
  match xs with
  | Some l => length l
  | None => 0%nat
  end.

(** [evaluateRuleLogic] *)
Definition evaluateRuleLogic (rule : CustomRule.t)
    (primaryMatches secondaryMatches : list string) (allText : string)
    : LogicResult.t :=
  let logic := logicOf rule in
  let hasKeywords := (0 <? lengthOr0 (CustomRule.keywords rule))%nat in
  let hasSecondaryKeywords := (0 <? lengthOr0 (CustomRule.secondaryKeywords rule))%nat in
  if JS.truthy (CustomRule.alwaysActive rule) then
    LogicResult.mk true "Always active (constant rule)" []
  else if negb hasKeywords && negb hasSecondaryKeywords then
    LogicResult.mk false
      "No keywords defined - rule requires keywords to activate or alwaysActive flag" []
  else
    let allMatched := primaryMatches ++ secondaryMatches in
    let notSatisfied :=
      LogicResult.mk false
        ("Logic " +:+ RuleLogic_name logic +:+ " not satisfied") allMatched in
    match logic with
    | AND_ANY =>
        if (0 <? length primaryMatches)%nat || (0 <? length secondaryMatches)%nat then
          LogicResult.mk true
            ("AND_ANY: Matched " +:+ pretty (length allMatched) +:+ " keywords")
            allMatched
        else notSatisfied
    | AND_ALL =>
        let primaryRequired := lengthOr0 (CustomRule.keywords rule) in
        let secondaryRequired := lengthOr0 (CustomRule.secondaryKeywords rule) in
        if (length primaryMatches =? primaryRequired)%nat
           && (length secondaryMatches =? secondaryRequired)%nat then
          LogicResult.mk true
            ("AND_ALL: All " +:+ pretty (primaryRequired + secondaryRequired)%nat
             +:+ " keywords matched")
            allMatched
        else notSatisfied
    | NOT_ALL =>
        let totalRequired :=
          (lengthOr0 (CustomRule.keywords rule)
           + lengthOr0 (CustomRule.secondaryKeywords rule))%nat in
        if (length allMatched <? totalRequired)%nat && (0 <? length allMatched)%nat then
          LogicResult.mk true
            ("NOT_ALL: " +:+ pretty (length allMatched) +:+ "/"
             +:+ pretty totalRequired +:+ " keywords matched")
            allMatched
        else notSatisfied
    | NOT_ANY =>
        if (length allMatched =? 0)%nat then
          LogicResult.mk true "NOT_ANY: No keywords found" []
        else notSatisfied
    end.

(** [checkProbability]: the answer and the number of draws made so far. *)
Definition checkProbability (rule : CustomRule.t) (n : nat) : bool * nat :=
  match CustomRule.probability rule with
  | None => (true, n)
  | Some p =>
      if 100 <=? p then (true, n)
      else if p <=? 0 then (false, n)
      else
        let r := random n in
        (QArith_base.Qnum r * 100 <? p * Z.pos (QArith_base.Qden r), S n)
  end.

(** [checkActivationLimits] *)
Definition checkActivationLimits (activationHistory : gmap string (list Z))
    (rule : CustomRule.t) (currentTurn : Z) : bool :=
  let cap := CustomRule.maxActivationsPerTurn rule in
  if negb (JS.truthyNum cap) || (default 0 cap <=? 0) then true
  else
    let history := default [] (activationHistory !! CustomRule.id rule) in
    let activationsThisTurn :=
      length (List.filter (fun turn => turn =? currentTurn) history) in
    Z.of_nat activationsThisTurn <? default 0 cap.

(** [entry.parts.map(part => part.text).join(' ')] *)
Definition entryText (entry : GameHistoryEntry.t) : string :=
  JS.join " " (map Part.text (GameHistoryEntry.parts entry)).

(** The local constant [depth] of [collectScanText]. *)
Definition depthOf (rule : CustomRule.t) (context : ActivationContext.t) : Z :=
  JS.orNum (CustomRule.scanDepth rule)
    (JS.orNum (ActivationContext.scanDepth context) 5).

(** The filter of the memories that are scanned. *)
Definition memoryScanned (m : Memory.t) : bool :=
  negb (JS.truthy (Memory.pinned m))
  || (JS.truthyNum (Memory.importance m) && (70 <? default 0 (Memory.importance m))).

(** [collectScanText] *)
Definition collectScanText (rule : CustomRule.t) (context : ActivationContext.t)
    : string :=
  let scanText := EmptyString in
  let depth := depthOf rule context in
  let scanText :=
    if JS.notFalse (CustomRule.scanPlayerInput rule)
       && JS.truthyStr (ActivationContext.playerInput context)
    then scanText +:+ default EmptyString (ActivationContext.playerInput context) +:+ " "
    else scanText in
  let scanText :=
    if JS.notFalse (CustomRule.scanAIOutput rule)
       && JS.truthyStr (ActivationContext.aiResponse context)
    then scanText +:+ default EmptyString (ActivationContext.aiResponse context) +:+ " "
    else scanText in
  let scanText :=
    match ActivationContext.gameHistory context with
    | Some (e :: es) =>
        let gameHistory := e :: es in
        let scanText :=
          if JS.notFalse (CustomRule.scanAIOutput rule) then
            let aiResponses :=
              JS.slice (-3)
                (List.filter
                   (fun entry => String.eqb (GameHistoryEntry.role entry) "model")
                   gameHistory) in
            fold_left (fun scanText entry => scanText +:+ entryText entry +:+ " ")
              aiResponses scanText
          else scanText in
        if JS.notFalse (CustomRule.scanPlayerInput rule) then
          let recentHistory := JS.slice (- depth) gameHistory in
          fold_left
            (fun scanText entry =>
               if String.eqb (GameHistoryEntry.role entry) "user"
               then scanText +:+ entryText entry +:+ " "
               else scanText)
            recentHistory scanText
        else scanText
    | _ => scanText
    end in
  let scanText :=
    match ActivationContext.memories context with
    | Some memories =>
        if JS.notFalse (CustomRule.scanMemories rule) then
          let recentMemories := JS.slice (- depth) (List.filter memoryScanned memories) in
          fold_left (fun scanText memory => scanText +:+ Memory.text memory +:+ " ")
            recentMemories scanText
        else scanText
    | None => scanText
    end in
  JS.trim scanText.

(** [rule.tokenWeight || this.estimateTokens(rule.content)] *)
Definition tokenCostOf (rule : CustomRule.t) : Z :=
  JS.orNum (CustomRule.tokenWeight rule) (estimateTokens (CustomRule.content rule)).

(** The two calls of [checkKeywordMatch] in [processRules]. *)
Definition primaryMatchOf (rule : CustomRule.t) (context : ActivationContext.t)
    (scanText : string) : KeywordMatch.t :=
  checkKeywordMatch scanText (default [] (CustomRule.keywords rule))
    (JS.orBool (CustomRule.caseSensitive rule) (ActivationContext.caseSensitive context))
    (JS.orBool (CustomRule.matchWholeWords rule) (ActivationContext.matchWholeWords context)).

Definition secondaryMatchOf (rule : CustomRule.t) (context : ActivationContext.t)
    (scanText : string) : KeywordMatch.t :=
  checkKeywordMatch scanText (default [] (CustomRule.secondaryKeywords rule))
    (JS.orBool (CustomRule.caseSensitive rule) (ActivationContext.caseSensitive context))
    (JS.orBool (CustomRule.matchWholeWords rule) (ActivationContext.matchWholeWords context)).

(** The end of the loop body, "Rule activated!": the rule is pushed on
    [activated], its cost added, the turn pushed on its history and its
    two metadata fields assigned. *)
Definition activateRule (l : loc) (rule : CustomRule.t) (logicResult : LogicResult.t)
    (tokenCost currentTurn : Z) (st : Pass) : Pass :=
  let w := world st in
  let activatedRule :=
    ActivatedRule.mk l (LogicResult.reason logicResult)
      (LogicResult.matchedKeywords logicResult) tokenCost
      (JS.orNum (CustomRule.order rule) 0) in
  let history := default [] (activationHistory w !! CustomRule.id rule) in
  let rule' :=
    CustomRule.setMetadata currentTurn
      (JS.orNum (CustomRule.activationCount rule) 0 + 1) rule in
  mkPass
    (mkWorld (<[l := rule']> (heap w))
       (<[CustomRule.id rule := history ++ [currentTurn]]> (activationHistory w))
       (draws w)
       (console w ++ [Logged l (Activated (LogicResult.reason logicResult))]))
    (activated st ++ [activatedRule])
    (skipped st)
    (totalTokens st + tokenCost).

(** The body of the loop [for (const rule of activeRules)].  With rules and
    a context of the declared types nothing in the body throws, so the
    [catch] branch is not reachable and is not modelled. *)
Definition processRule (context : ActivationContext.t) (tokenBudget currentTurn : Z)
    (st : Pass) (l : loc) : Pass :=
  match heap (world st) !! l with
  | None => st
  | Some rule =>
      if negb (checkActivationLimits (activationHistory (world st)) rule currentTurn)
      then skip l SkippedLimit st
      else
        let '(passed, n) := checkProbability rule (draws (world st)) in
        let st := mkPass (setDraws n (world st)) (activated st) (skipped st)
                    (totalTokens st) in
        if negb passed then skip l SkippedProbability st
        else
          let scanText := collectScanText rule context in
          if negb (JS.nonEmpty scanText) then dropRule l SkippedNoText st
          else
            let primaryMatch := primaryMatchOf rule context scanText in
            let secondaryMatch := secondaryMatchOf rule context scanText in
            let logicResult :=
              evaluateRuleLogic rule (KeywordMatch.matchedKeywords primaryMatch)
                (KeywordMatch.matchedKeywords secondaryMatch) scanText in
            if negb (LogicResult.activated logicResult) then
              skip l
                (SkippedLogic (LogicResult.reason logicResult)
                   (KeywordMatch.matchedKeywords primaryMatch)
                   (KeywordMatch.matchedKeywords secondaryMatch))
                st
            else
              let tokenCost := tokenCostOf rule in
              if tokenBudget <? totalTokens st + tokenCost then skip l SkippedBudget st
              else activateRule l rule logicResult tokenCost currentTurn st
  end.

(** The local constants [tokenBudget] and [currentTurn] of [processRules]. *)
Definition tokenBudgetOf (context : ActivationContext.t) : Z :=
  JS.orNum (ActivationContext.tokenBudget context) 5000.

Definition currentTurnOf (context : ActivationContext.t) : Z :=
  JS.orNum (ActivationContext.currentTurn context) 0.

(** [rule.isActive] and [rule.order || 0] of the object at a reference. *)
Definition isActiveAt (h : gmap loc CustomRule.t) (l : loc) : bool :=
  match h !! l with
  | Some rule => CustomRule.isActive rule
  | None => false
  end.

Definition orderAt (h : gmap loc CustomRule.t) (l : loc) : Z :=
  match h !! l with
  | Some rule => JS.orNum (CustomRule.order rule) 0
  | None => 0
  end.

(** [rules.filter(rule => rule.isActive).sort(...)] *)
Definition activeRulesOf (h : gmap loc CustomRule.t) (rules : list loc) : list loc :=
  sort (fun a b => orderAt h b - orderAt h a) (List.filter (isActiveAt h) rules).

(** The loop of [processRules] over [activeRules]. *)
Definition runPass (context : ActivationContext.t) (w : World) (activeRules : list loc)
    : Pass :=
  fold_left
    (processRule context (tokenBudgetOf context) (currentTurnOf context))
    activeRules (mkPass w [] [] 0).

(** [processRules]: the result and the world it leaves. *)
Definition processRules (w : World) (rules : list loc) (context : ActivationContext.t)
    : ActivationResult.t * World :=
  let tokenBudget := tokenBudgetOf context in
  let activeRules := activeRulesOf (heap w) rules in
  let st := runPass context w activeRules in
  let activated :=
    sort (fun a b => ActivatedRule.priority b - ActivatedRule.priority a)
      (activated st) in
  (ActivationResult.mk activated (totalTokens st)
     (tokenBudget <? totalTokens st) (skipped st),
   world st).

End Engine.

(** ** Prompt formatting *)

(** The line feed of the template literals. *)
Definition LF : string := String "010"%char EmptyString.

(** The words of the template literals of [formatForPrompt], as the source
    file spells them. *)
Definition HEADER_WORDS : string := "LUáº¬T Lá»† TÃ™Y CHá»ˆNH ÄÆ¯á»¢C KÃCH HOáº T".
Definition RULE_WORD : string := "Luáº­t".
Definition PRIORITY_WORDS : string := "Äá»™ Æ°u tiÃªn".
Definition KEYWORD_WORDS : string := "Khá»›p tá»« khÃ³a".
Definition TOTAL_WORDS : string := "Tá»•ng cá»™ng".
Definition RULES_UNIT : string := "luáº­t".

(** One turn of the loop of [formatForPrompt]; [activated.rule] is read in
    the store. *)
Definition formatRule (h : gmap loc CustomRule.t) (prompt : string)
    (activated : ActivatedRule.t) : string :=
  match h !! ActivatedRule.rule activated with
  | None => prompt
  | Some rule =>
      let title :=
        JS.orStr (CustomRule.title rule) (RULE_WORD +:+ " " +:+ CustomRule.id rule) in
      let prompt :=
        prompt +:+ LF +:+ "[" +:+ title +:+ "] (" +:+ PRIORITY_WORDS +:+ ": "
        +:+ pretty (JS.orNum (CustomRule.order rule) 0) +:+ ")" in
      let prompt :=
        if (0 <? length (ActivatedRule.matchedKeywords activated))%nat then
          prompt +:+ " - " +:+ KEYWORD_WORDS +:+ ": "
          +:+ JS.join ", " (ActivatedRule.matchedKeywords activated)
        else prompt in
      prompt +:+ LF +:+ CustomRule.content rule +:+ LF
  end.

(** [formatForPrompt] *)
Definition formatForPrompt (h : gmap loc CustomRule.t)
    (activationResult : ActivationResult.t) : string :=
  match ActivationResult.activatedRules activationResult with
  | [] => EmptyString
  | _ =>
      let prompt := LF +:+ "=== " +:+ HEADER_WORDS +:+ " ===" +:+ LF in
      let prompt :=
        fold_left (formatRule h) (ActivationResult.activatedRules activationResult)
          prompt in
      prompt +:+ LF +:+ "=== " +:+ TOTAL_WORDS +:+ ": "
      +:+ pretty (length (ActivationResult.activatedRules activationResult))
      +:+ " " +:+ RULES_UNIT +:+ ", "
      +:+ pretty (ActivationResult.totalTokens activationResult)
      +:+ " tokens ===" +:+ LF
  end.

(** ** Vocabulary of the properties *)

(** What one turn of the loop of [processRules] can do to the state of the
    pass: nothing (a reference to no object, which JavaScript does not have),
    report the rule as skipped, drop it, or activate it within the budget. *)
Inductive step_of (budget turn : Z) (st : Pass) (l : loc) : Pass -> Prop :=
  | step_dangling :
      heap (world st) !! l = None -> step_of budget turn st l st
  | step_skip rule n o :
      heap (world st) !! l = Some rule ->
      step_of budget turn st l
        (skip l o (mkPass (setDraws n (world st)) (activated st) (skipped st)
                     (totalTokens st)))
  | step_drop rule n o :
      heap (world st) !! l = Some rule ->
      step_of budget turn st l
        (dropRule l o (mkPass (setDraws n (world st)) (activated st) (skipped st)
                         (totalTokens st)))
  | step_activate rule n logicResult :
      heap (world st) !! l = Some rule ->
      totalTokens st + tokenCostOf rule <= budget ->
      step_of budget turn st l
        (activateRule l rule logicResult (tokenCostOf rule) turn
           (mkPass (setDraws n (world st)) (activated st) (skipped st)
              (totalTokens st))).

(** A pass over [active] reports on, lists and mutates rules of [active]
    only. *)
Definition touches_only (active : list loc) (w : World) (st : Pass) : Prop :=
  (forall a, a ∈ activated st -> ActivatedRule.rule a ∈ active)
  /\ (forall l, l ∈ skipped st -> l ∈ active)
  /\ (exists new, console (world st) = console w ++ new
                  /\ forall e, e ∈ new -> subject e ∈ active)
  /\ (forall l, l ∉ active -> heap (world st) !! l = heap w !! l).

(** [rule.activationCount || 0] *)
Definition countOf (rule : CustomRule.t) : Z :=
  default 0 (CustomRule.activationCount rule).

(** How many entries of [acts] are for the object [l]. *)
Definition timesActivated (l : loc) (acts : list ActivatedRule.t) : nat :=
  length (filter (fun a => ActivatedRule.rule a = l) acts).

(** The [id] of the object at a reference. *)
Definition idAt (h : gmap loc CustomRule.t) (l : loc) : option string :=
  CustomRule.id <$> h !! l.

(** No two rule objects of the store have the same id ("identity: unique
    id" in the data model of the specification). *)
Definition uniqueIds (h : gmap loc CustomRule.t) : Prop :=
  forall l1 l2 r1 r2,
    h !! l1 = Some r1 -> h !! l2 = Some r2 -> CustomRule.id r1 = CustomRule.id r2 ->
    l1 = l2.

(** How many entries of [acts] are for a rule whose id is [k]. *)
Definition timesFired (h : gmap loc CustomRule.t) (k : string)
    (acts : list ActivatedRule.t) : nat :=
  length (filter (fun a => idAt h (ActivatedRule.rule a) = Some k) acts).

(** A rule object after [n] activations in a call at turn [turn]. *)
Definition bump (turn : Z) (n : nat) (rule : CustomRule.t) : CustomRule.t :=
  match n with
  | O => rule
  | S _ => CustomRule.setMetadata turn (countOf rule + Z.of_nat n) rule
  end.

(** A history entry after [n] activations in a call at turn [turn]. *)
Definition appendTurns (turn : Z) (n : nat) (entry : option (list Z))
    : option (list Z) :=
  match n with
  | O => entry
  | S _ => Some (default [] entry ++ replicate n turn)
  end.

(** The state of a pass against the world the call started in. *)
Definition effect_of (turn : Z) (w : World) (st : Pass) : Prop :=
  (forall l, heap (world st) !! l
             = bump turn (timesActivated l (activated st)) <$> heap w !! l)
  /\ (forall k, activationHistory (world st) !! k
                = appendTurns turn (timesFired (heap w) k (activated st))
                    (activationHistory w !! k)).

(** Order on an optional turn number: [undefined] is below every turn. *)
Definition optLe (a b : option Z) : Prop :=
  match a, b with
  | None, _ => True
  | Some x, Some y => x <= y
  | Some _, None => False
  end.

(** The rule passes every gate of the loop body up to the budget test, but
    for the two gates on the activation cap and the probability. *)
Definition logicActivates (RuleLogic_value : RuleLogic -> Z) (rule : CustomRule.t)
    (context : ActivationContext.t) : bool :=
  let scanText := collectScanText rule context in
  JS.nonEmpty scanText
  && LogicResult.activated
       (evaluateRuleLogic RuleLogic_value rule
          (KeywordMatch.matchedKeywords (primaryMatchOf rule context scanText))
          (KeywordMatch.matchedKeywords (secondaryMatchOf rule context scanText))
          scanText).

(** *** The sources of the scan text, in the words of the specification *)

(** The last [n] entries of a list. *)
Definition lastN {A} (n : nat) (l : list A) : list A := drop (length l - n) l.

(** Fragments, each followed by a space. *)
Definition spaced (l : list string) : string :=
  foldr (fun s rest => s +:+ " " +:+ rest) EmptyString l.

Definition isModel (entry : GameHistoryEntry.t) : bool :=
  String.eqb (GameHistoryEntry.role entry) "model".

Definition isUser (entry : GameHistoryEntry.t) : bool :=
  String.eqb (GameHistoryEntry.role entry) "user".

(** Sources 1 and 2: the current player input and the current AI response. *)
Definition currentText (rule : CustomRule.t) (context : ActivationContext.t) : string :=
  (if JS.notFalse (CustomRule.scanPlayerInput rule)
   then spaced (List.filter JS.nonEmpty (option_list (ActivationContext.playerInput context)))
   else EmptyString)
  +:+
  (if JS.notFalse (CustomRule.scanAIOutput rule)
   then spaced (List.filter JS.nonEmpty (option_list (ActivationContext.aiResponse context)))
   else EmptyString).

(** Source 3 as the specification words it: the last 3 entries whose role is
    'model', whatever the depth and whatever the rule. *)
Definition lastThreeModelText (history : list GameHistoryEntry.t) : string :=
  spaced (map entryText (lastN 3 (List.filter isModel history))).

(** Source 3 with the toggle of the rule. *)
Definition aiHistoryText (rule : CustomRule.t) (history : list GameHistoryEntry.t)
    : string :=
  if JS.notFalse (CustomRule.scanAIOutput rule) then lastThreeModelText history
  else EmptyString.

(** Source 4: the entries of the player among the last [depth] entries. *)
Definition playerHistoryText (rule : CustomRule.t) (depth : nat)
    (history : list GameHistoryEntry.t) : string :=
  if JS.notFalse (CustomRule.scanPlayerInput rule)
  then spaced (map entryText (List.filter isUser (lastN depth history)))
  else EmptyString.

(** Source 5: the last [depth] of the memories that are scanned. *)
Definition memoryText (rule : CustomRule.t) (depth : nat) (memories : list Memory.t)
    : string :=
  if JS.notFalse (CustomRule.scanMemories rule)
  then spaced (map Memory.text (lastN depth (List.filter memoryScanned memories)))
  else EmptyString.

(** The scan text if source 3 were there whatever the rule says. *)
Definition scanTextWithAIHistoryAlways (rule : CustomRule.t)
    (context : ActivationContext.t) : string :=
  let history := default [] (ActivationContext.gameHistory context) in
  let memories := default [] (ActivationContext.memories context) in
  let depth := Z.to_nat (depthOf rule context) in
  JS.trim (currentText rule context
           +:+ lastThreeModelText history
           +:+ playerHistoryText rule depth history
           +:+ memoryText rule depth memories).

(** *** Records with one field replaced *)

Definition withScanDepth (d : option Z) (r : CustomRule.t) : CustomRule.t :=
  CustomRule.mk (CustomRule.id r) (CustomRule.title r) (CustomRule.content r)
    (CustomRule.isActive r) (CustomRule.keywords r) (CustomRule.secondaryKeywords r)
    (CustomRule.logic r) (CustomRule.alwaysActive r) (CustomRule.caseSensitive r)
    (CustomRule.matchWholeWords r) d (CustomRule.scanPlayerInput r)
    (CustomRule.scanAIOutput r) (CustomRule.scanMemories r) (CustomRule.tokenWeight r)
    (CustomRule.probability r) (CustomRule.maxActivationsPerTurn r) (CustomRule.order r)
    (CustomRule.lastActivated r) (CustomRule.activationCount r).

Definition withTokenBudget (b : option Z) (c : ActivationContext.t)
    : ActivationContext.t :=
  ActivationContext.mk (ActivationContext.playerInput c) (ActivationContext.aiResponse c)
    (ActivationContext.gameHistory c) (ActivationContext.memories c)
    (ActivationContext.currentTurn c) (ActivationContext.scanDepth c) b
    (ActivationContext.caseSensitive c) (ActivationContext.matchWholeWords c).

(** *** The footer of the prompt block *)

(** The last line [formatForPrompt] writes, for [n] rules and [t] tokens. *)
Definition footer (n : nat) (t : Z) : string :=
  LF +:+ "=== " +:+ TOTAL_WORDS +:+ ": " +:+ pretty n +:+ " " +:+ RULES_UNIT +:+ ", "
  +:+ pretty t +:+ " tokens ===" +:+ LF.

Definition chars (s : string) : list ascii := list_ascii_of_string s.

Definition blank : ascii := " "%char.

(** ** Sample inputs *)

(** The numbering TypeScript gives the members of an enum declared in this
    order without initialisers. *)
Definition sampleValues (l : RuleLogic) : Z :=
  match l with
  | AND_ANY => 0
  | NOT_ALL => 1
  | NOT_ANY => 2
  | AND_ALL => 3
  end.

(** A [Math.random] that always returns one half. *)
Definition sampleRandom (n : nat) : QArith_base.Q := QArith_base.Qmake 1 2.

Definition sampleRule (id : string) (keywords : list string) (order tokenWeight : Z)
    (isActive : bool) : CustomRule.t :=
  CustomRule.mk id None "The dragon guards the northern pass." isActive
    (Some keywords) None None None None None None None None None
    (Some tokenWeight) None None (Some order) None None.

Definition R1 : CustomRule.t := sampleRule "R1" ["dragon"] 10 3000 true.
Definition R2 : CustomRule.t := sampleRule "R2" ["dragon"] 5 3000 true.
Definition R3 : CustomRule.t := sampleRule "R3" ["dragon"] 7 10 false.

Definition sampleWorld : World :=
  mkWorld (<[2%nat := R3]> (<[1%nat := R2]> (<[0%nat := R1]> ∅))) ∅ 0 [].

Definition sampleContext (turn : Z) : ActivationContext.t :=
  ActivationContext.mk (Some "A dragon appears") None None None (Some turn) None
    (Some 5000) None None.

(** A rule that asks for case-insensitive matching, in a context whose
    default is case-sensitive. *)
Definition insensitiveRule : CustomRule.t :=
  CustomRule.mk "R4" None "Dragons hoard gold." true (Some ["Dragon"]) None None None
    (Some false) None None None None None None None None None None None.

Definition sensitiveContext : ActivationContext.t :=
  ActivationContext.mk (Some "A dragon appears") None None None (Some 1) None None
    (Some true) None.

(** A rule with AI-output scanning switched off, and a history with one
    entry of the AI. *)
Definition playerOnlyRule : CustomRule.t :=
  CustomRule.mk "R5" None "Dragons hoard gold." true (Some ["dragon"]) None None None
    None None None None (Some false) None None None None None None None.

Definition narratedContext : ActivationContext.t :=
  ActivationContext.mk (Some "hello") None
    (Some [GameHistoryEntry.mk "model" [Part.mk "dragon"]]) None (Some 1) None None
    None None.

(** A rule under [NOT_ALL] with two primary keywords and one secondary. *)
Definition partialRule : CustomRule.t :=
  CustomRule.mk "R6" None "Dragons hoard gold." true (Some ["dragon"; "gold"])
    (Some ["cave"]) (Some NOT_ALL) None None None None None None None None None None
    None None None.

(** ** The rest of the engine *)

(** The characters of the class [[.*+?^${}()|[\]\\]] of [escapeRegex]. *)
Definition isRegexSpecial (c : ascii) : bool :=
  existsb (Ascii.eqb c)
    [".";"*";"+";"?";"^";"$";"{";"}";"(";")";"|";"[";"]";"\"]%char.

(** [escapeRegex]: [text.replace(/[.*+?^${}()|[\]\\]/g, '\\$&')] puts a
    backslash in front of every special character. *)
Fixpoint escapeRegex (text : string) : string :=
  match text with
  | EmptyString => EmptyString
  | String c rest =>
      if isRegexSpecial c then String "\"%char (String c (escapeRegex rest))
      else String c (escapeRegex rest)
  end.

(** [clearHistory]: [this.activationHistory.clear()]. *)
Definition clearHistory (w : World) : World :=
  mkWorld (heap w) ∅ (draws w) (console w).

(** What [getStats] returns; the quotient [totalActivations / activeRules]
    is kept as a rational. *)
Module Stats.
Record t := mk {
  totalRules : nat;
  activeRules : nat;
  averageActivations : QArith_base.Q
}.
End Stats.

(** [getStats] *)
Definition getStats (w : World) : Stats.t :=
  let activeRules := length (map_to_list (activationHistory w)).*1 in
  let totalActivations :=
    foldl (fun sum history => (sum + length history)%nat) 0%nat
      (map_to_list (activationHistory w)).*2 in
  Stats.mk (size (activationHistory w)) activeRules
    (if (0 <? activeRules)%nat
     then QArith_base.Qmake (Z.of_nat totalActivations) (Pos.of_nat activeRules)
     else QArith_base.Qmake 0 1).

(** ** Vocabulary of the further properties *)

(** The state of a pass once [checkProbability] has made its draws. *)
Definition withDraws (n : nat) (st : Pass) : Pass :=
  mkPass (setDraws n (world st)) (activated st) (skipped st) (totalTokens st).

Section Gates.

Variable RuleLogic_value : RuleLogic -> Z.
Variable random : nat -> QArith_base.Q.

(** The [logicResult] of the loop body of [processRules]: the two keyword
    matches on the scan text of the rule, then [evaluateRuleLogic]. *)
Definition logicResultOf (rule : CustomRule.t) (context : ActivationContext.t)
    : LogicResult.t :=
  let scanText := collectScanText rule context in
  evaluateRuleLogic RuleLogic_value rule
    (KeywordMatch.matchedKeywords (primaryMatchOf rule context scanText))
    (KeywordMatch.matchedKeywords (secondaryMatchOf rule context scanText))
    scanText.

(** One turn of the loop of [processRules], gate by gate: which test sent
    the rule where. *)
Inductive gate_of (context : ActivationContext.t) (budget turn : Z) (st : Pass) (l : loc)
    : Pass -> Prop :=
  | gate_dangling :
      heap (world st) !! l = None -> gate_of context budget turn st l st
  | gate_limit rule :
      heap (world st) !! l = Some rule ->
      checkActivationLimits (activationHistory (world st)) rule turn = false ->
      gate_of context budget turn st l (skip l SkippedLimit st)
  | gate_probability rule n :
      heap (world st) !! l = Some rule ->
      checkActivationLimits (activationHistory (world st)) rule turn = true ->
      checkProbability random rule (draws (world st)) = (false, n) ->
      gate_of context budget turn st l (skip l SkippedProbability (withDraws n st))
  | gate_no_text rule n :
      heap (world st) !! l = Some rule ->
      checkActivationLimits (activationHistory (world st)) rule turn = true ->
      checkProbability random rule (draws (world st)) = (true, n) ->
      collectScanText rule context = EmptyString ->
      gate_of context budget turn st l (dropRule l SkippedNoText (withDraws n st))
  | gate_logic rule n :
      heap (world st) !! l = Some rule ->
      checkActivationLimits (activationHistory (world st)) rule turn = true ->
      checkProbability random rule (draws (world st)) = (true, n) ->
      JS.nonEmpty (collectScanText rule context) = true ->
      LogicResult.activated (logicResultOf rule context) = false ->
      gate_of context budget turn st l
        (skip l
           (SkippedLogic (LogicResult.reason (logicResultOf rule context))
              (KeywordMatch.matchedKeywords
                 (primaryMatchOf rule context (collectScanText rule context)))
              (KeywordMatch.matchedKeywords
                 (secondaryMatchOf rule context (collectScanText rule context))))
           (withDraws n st))
  | gate_budget rule n :
      heap (world st) !! l = Some rule ->
      checkActivationLimits (activationHistory (world st)) rule turn = true ->
      checkProbability random rule (draws (world st)) = (true, n) ->
      JS.nonEmpty (collectScanText rule context) = true ->
      LogicResult.activated (logicResultOf rule context) = true ->
      budget < totalTokens st + tokenCostOf rule ->
      gate_of context budget turn st l (skip l SkippedBudget (withDraws n st))
  | gate_activate rule n :
      heap (world st) !! l = Some rule ->
      checkActivationLimits (activationHistory (world st)) rule turn = true ->
      checkProbability random rule (draws (world st)) = (true, n) ->
      JS.nonEmpty (collectScanText rule context) = true ->
      LogicResult.activated (logicResultOf rule context) = true ->
      totalTokens st + tokenCostOf rule <= budget ->
      gate_of context budget turn st l
        (activateRule l rule (logicResultOf rule context) (tokenCostOf rule) turn
           (withDraws n st)).

End Gates.

(** An entry of [activated] is what the gates compute for the rule object
    it refers to in the store [h]. *)
Definition justified (RuleLogic_value : RuleLogic -> Z) (h : gmap loc CustomRule.t)
    (context : ActivationContext.t) (a : ActivatedRule.t) : Prop :=
  exists rule,
    h !! ActivatedRule.rule a = Some rule
    /\ (forall p, CustomRule.probability rule = Some p -> 0 < p)
    /\ JS.nonEmpty (collectScanText rule context) = true
    /\ LogicResult.activated (logicResultOf RuleLogic_value rule context) = true
    /\ a = ActivatedRule.mk (ActivatedRule.rule a)
             (LogicResult.reason (logicResultOf RuleLogic_value rule context))
             (LogicResult.matchedKeywords (logicResultOf RuleLogic_value rule context))
             (tokenCostOf rule) (JS.orNum (CustomRule.order rule) 0).

(** [history.filter(turn => turn === currentTurn).length] for an entry of
    the history map ([undefined] counts as no activation). *)
Definition countTurn (turn : Z) (entry : option (list Z)) : nat :=
  length (List.filter (fun t => t =? turn) (default [] entry)).


(** The three kinds of console line: the rule was activated, pushed on
    [skipped], or dropped for want of scan text. *)
Definition isActivatedLine (e : LogEvent) : bool :=
  match outcome e with
  | Activated _ => true
  | _ => false
  end.

Definition isSkippedLine (e : LogEvent) : bool :=
  match outcome e with
  | SkippedLimit | SkippedProbability | SkippedLogic _ _ _ | SkippedBudget => true
  | _ => false
  end.

Definition isDroppedLine (e : LogEvent) : bool :=
  match outcome e with
  | SkippedNoText => true
  | _ => false
  end.

(** [checkProbability] decides without calling [Math.random]: the
    probability is undefined, at most 0 or at least 100. *)
Definition neverDraws (rule : CustomRule.t) : bool :=
  match CustomRule.probability rule with
  | Some p => (p <=? 0) || (100 <=? p)
  | None => true
  end.

(** A keyword is matched in the scan text with the flags [processRules]
    passes for the rule. *)
Definition keywordFoundFor (rule : CustomRule.t) (context : ActivationContext.t)
    (scanText keyword : string) : bool :=
  let caseSensitive :=
    JS.truthy (CustomRule.caseSensitive rule)
    || JS.truthy (ActivationContext.caseSensitive context) in
  let matchWholeWords :=
    JS.truthy (CustomRule.matchWholeWords rule)
    || JS.truthy (ActivationContext.matchWholeWords context) in
  keywordFound (if caseSensitive then scanText else JS.toLowerCase scanText)
    caseSensitive matchWholeWords keyword.

(** The keywords of a rule, primary then secondary. *)
Definition configuredKeywords (rule : CustomRule.t) : list string :=
  default [] (CustomRule.keywords rule) ++ default [] (CustomRule.secondaryKeywords rule).

(** No entry of the history map is an empty list. *)
Definition entriesNonEmpty (hist : gmap string (list Z)) : Prop :=
  forall k history, hist !! k = Some history -> history <> [].

(** Reading an escaped text back: a backslash stands for the character
    after it.  [fuel] bounds the number of characters read. *)
Fixpoint unescape (fuel : nat) (escaped : string) : string :=
  match fuel, escaped with
  | S fuel, String "\"%char (String c rest) => String c (unescape fuel rest)
  | S fuel, String c rest => String c (unescape fuel rest)
  | _, _ => EmptyString
  end.

(** ** Further sample inputs *)

(** A rule that may activate once per turn, and a world in which it has
    already activated at turn 4. *)
Definition cappedRule : CustomRule.t :=
  CustomRule.mk "R7" None "The gate is guarded." true (Some ["dragon"]) None None None
    None None None None None None (Some 100) None (Some 1) (Some 3) (Some 4) (Some 1).

Definition cappedWorld : World :=
  mkWorld (<[0%nat := cappedRule]> ∅) (<["R7" := [4]]> ∅) 0 [].

(** A context with nothing to scan. *)
Definition silentContext : ActivationContext.t :=
  ActivationContext.mk None None None None (Some 1) None None None None.

(** Rules under the other logic modes, and a constant rule. *)
Definition allRule : CustomRule.t :=
  CustomRule.mk "R8" None "Dragons appear at dusk." true (Some ["dragon"; "appears"])
    None (Some AND_ALL) None None None None None None None None None None None None None.

Definition noneRule : CustomRule.t :=
  CustomRule.mk "R9" None "No troll is near." true (Some ["troll"]) None
    (Some NOT_ANY) None None None None None None None None None None None None None.



(** ** Lists, sorting and strings *)

Lemma fold_left_invariant {A B} (f : B -> A -> B) (P : B -> Prop) (l : list A) (b : B) :
  P b -> (forall b a, a ∈ l -> P b -> P (f b a)) -> P (fold_left f l b).
Proof.
  revert b. induction l as [|x l IH]; intros b Hb Hstep; simpl; [done|].
  apply IH.
  - apply Hstep; [left | done].
  - intros b' a Ha. apply Hstep. by right.
Qed.

Lemma insertBy_perm {A} (cmp : A -> A -> Z) x l : insertBy cmp x l ≡ₚ x :: l.
Proof.
  induction l as [|y l IH]; simpl; [done|].
  destruct (cmp x y <=? 0); [done|].
  rewrite IH. apply Permutation_swap.
Qed.

Lemma sort_perm {A} (cmp : A -> A -> Z) l : sort cmp l ≡ₚ l.
Proof.
  induction l as [|x l IH]; simpl; [done|].
  unfold sort in *. simpl. rewrite insertBy_perm. by rewrite IH.
Qed.

Lemma elem_of_sort {A} (cmp : A -> A -> Z) l x : x ∈ sort cmp l <-> x ∈ l.
Proof. by rewrite sort_perm. Qed.

(** Sorting with the comparator [key b - key a] puts the larger keys first. *)
Lemma insertBy_descending {A} (key : A -> Z) x l :
  Sorted (fun a b => key b <= key a) l ->
  Sorted (fun a b => key b <= key a) (insertBy (fun a b => key b - key a) x l).
Proof.
  induction 1 as [|y l Hl IH Hhd]; simpl.
  - by repeat constructor.
  - destruct (Z.leb_spec (key y - key x) 0).
    + constructor; [by constructor|]. constructor. lia.
    + constructor; [done|].
      destruct Hhd as [|z l' Hz]; simpl.
      * constructor. lia.
      * destruct (key z - key x <=? 0); constructor; lia.
Qed.

Lemma sort_descending {A} (key : A -> Z) l :
  Sorted (fun a b => key b <= key a) (sort (fun a b => key b - key a) l).
Proof.
  induction l as [|x l IH]; [constructor|]. by apply insertBy_descending.
Qed.

Lemma string_app_cons c s t : String c s +:+ t = String c (s +:+ t).
Proof. reflexivity. Qed.

Lemma string_app_nil_l s : EmptyString +:+ s = s.
Proof. reflexivity. Qed.

Lemma string_app_nil_r s : s +:+ EmptyString = s.
Proof. induction s as [|c s IH]; [done|]. by rewrite string_app_cons, IH. Qed.

Lemma string_app_assoc s t u : (s +:+ t) +:+ u = s +:+ (t +:+ u).
Proof. induction s as [|c s IH]; [done|]. by rewrite !string_app_cons, IH. Qed.

Lemma string_app_not_empty s c t : s +:+ String c t <> EmptyString.
Proof. by destruct s. Qed.

Lemma chars_app s t : chars (s +:+ t) = chars s ++ chars t.
Proof.
  induction s as [|c s IH]; [done|].
  rewrite string_app_cons. simpl. by rewrite IH.
Qed.

Lemma chars_inj s t : chars s = chars t -> s = t.
Proof.
  intros H.
  rewrite <- (string_of_list_ascii_of_string s), <- (string_of_list_ascii_of_string t).
  unfold chars in H. by rewrite H.
Qed.

(** Two fields that end at their first separator are read the same way. *)
Lemma first_separator {A} (sep : A) (a b x y : list A) :
  sep ∉ a -> sep ∉ b -> a ++ sep :: x = b ++ sep :: y -> a = b /\ x = y.
Proof.
  revert b. induction a as [|c a IH]; intros [|d b] Ha Hb Heq; simpl in Heq.
  - by injection Heq.
  - injection Heq as <- _. exfalso. apply Hb. left.
  - injection Heq as -> _. exfalso. apply Ha. left.
  - injection Heq as <- Heq.
    destruct (IH b) as [-> ->]; [| |done|done].
    + intros ?. apply Ha. by right.
    + intros ?. apply Hb. by right.
Qed.

(** A number in decimal has no space in it. *)
Lemma pretty_N_go_no_blank x s :
  blank ∉ chars s -> blank ∉ chars (pretty_N_go x s).
Proof.
  revert s. induction (N.lt_wf_0 x) as [x _ IH]; intros s Hs.
  assert (x = 0 \/ 0 < x)%N as [->|Hpos] by lia.
  - by rewrite pretty_N_go_0.
  - rewrite pretty_N_go_step by done. apply IH.
    + by apply N.div_lt.
    + simpl. intros [Hd|?]%elem_of_cons; [|done].
      revert Hd. unfold pretty_N_char, blank. by repeat case_match.
Qed.

Lemma pretty_N_no_blank (x : N) : blank ∉ chars (pretty x).
Proof.
  unfold pretty, pretty_N. case_decide.
  - simpl. intros [?|[]%elem_of_nil]%elem_of_cons. done.
  - apply pretty_N_go_no_blank. simpl. apply not_elem_of_nil.
Qed.

Lemma pretty_nat_no_blank (n : nat) : blank ∉ chars (pretty n).
Proof. apply pretty_N_no_blank. Qed.

Lemma pretty_Z_no_blank (z : Z) : blank ∉ chars (pretty z).
Proof.
  unfold pretty, pretty_Z. destruct z as [|p|p].
  - simpl. intros [?|[]%elem_of_nil]%elem_of_cons. done.
  - apply pretty_N_no_blank.
  - rewrite chars_app. simpl. intros [?|H]%elem_of_cons; [done|].
    by apply (pretty_N_no_blank (N.pos p)).
Qed.

Lemma footer_shape n t :
  footer n t
  = (LF +:+ "=== " +:+ TOTAL_WORDS +:+ ":") +:+ " " +:+ pretty n
    +:+ (" " +:+ RULES_UNIT +:+ ",") +:+ " " +:+ pretty t +:+ (" tokens ===" +:+ LF).
Proof. reflexivity. Qed.

(** Whatever comes before it, a footer at the end of a text is the footer of
    one count and one total only. *)
Lemma footer_read_back body body' n n' t t' :
  body +:+ footer n t = body' +:+ footer n' t' -> n = n' /\ t = t'.
Proof.
  rewrite !footer_shape.
  generalize (LF +:+ "=== " +:+ TOTAL_WORDS +:+ ":") (" " +:+ RULES_UNIT +:+ ",")
             (" tokens ===" +:+ LF).
  intros opening middle closing Heq.
  apply (f_equal chars) in Heq. rewrite !chars_app in Heq.
  apply (f_equal reverse) in Heq. rewrite !reverse_app in Heq.
  change (chars " ") with [blank] in Heq. rewrite !reverse_singleton in Heq.
  rewrite <- !app_assoc in Heq. cbn [app] in Heq.
  apply app_inv_head in Heq.
  apply first_separator in Heq as [Ht Heq];
    [|rewrite elem_of_reverse; apply pretty_Z_no_blank..].
  apply app_inv_head in Heq.
  apply first_separator in Heq as [Hn _];
    [|rewrite elem_of_reverse; apply pretty_nat_no_blank..].
  split.
  - apply (inj reverse) in Hn. apply chars_inj in Hn. by apply (inj pretty) in Hn.
  - apply (inj reverse) in Ht. apply chars_inj in Ht. by apply (inj pretty) in Ht.
Qed.

(** ** Text collection *)

Lemma fold_left_spaced {A} (f : A -> string) l s0 :
  fold_left (fun s e => s +:+ f e +:+ " ") l s0 = s0 +:+ spaced (map f l).
Proof.
  revert s0. induction l as [|x l IH]; intros s0; simpl.
  - by rewrite string_app_nil_r.
  - rewrite IH. by rewrite !string_app_assoc.
Qed.

Lemma fold_left_spaced_if {A} (p : A -> bool) (f : A -> string) l s0 :
  fold_left (fun s e => if p e then s +:+ f e +:+ " " else s) l s0
  = s0 +:+ spaced (map f (List.filter p l)).
Proof.
  revert s0. induction l as [|x l IH]; intros s0; simpl.
  - by rewrite string_app_nil_r.
  - rewrite IH. destruct (p x); simpl; [|done]. by rewrite !string_app_assoc.
Qed.

(** [slice(-d)] with a positive [d] is the last [d] entries. *)
Lemma slice_last {A} (d : Z) (l : list A) :
  0 < d -> JS.slice (- d) l = lastN (Z.to_nat d) l.
Proof.
  intros Hd. unfold JS.slice, lastN.
  destruct (Z.ltb_spec (- d) 0); [|lia]. f_equal. lia.
Qed.

(** C6 (as amended): the scan text of a rule is, trimmed, the current player
    input and AI response, then the last 3 history entries whose role is
    'model' (each as its text parts joined with spaces) when AI-output
    scanning is not switched off for the rule and nothing from the AI
    history when it is, then the entries whose role is 'user' among the last
    [depth] history entries when player-input scanning is not switched off,
    then the memories.  The depth (the rule's scanDepth, else the context's,
    else 5; here positive) is in the player and memory parts only. *)
Theorem scan_text_sources rule context :
  0 < depthOf rule context ->
  let history := default [] (ActivationContext.gameHistory context) in
  let memories := default [] (ActivationContext.memories context) in
  let depth := Z.to_nat (depthOf rule context) in
  collectScanText rule context
  = JS.trim (currentText rule context
             +:+ aiHistoryText rule history
             +:+ playerHistoryText rule depth history
             +:+ memoryText rule depth memories).
Proof.
  intros Hd history memories depth. unfold collectScanText. cbv zeta. f_equal.
  unfold currentText, aiHistoryText, playerHistoryText, memoryText, lastThreeModelText.
  subst history memories.
  destruct (JS.notFalse (CustomRule.scanPlayerInput rule)),
           (JS.notFalse (CustomRule.scanAIOutput rule)),
           (JS.notFalse (CustomRule.scanMemories rule));
    destruct (ActivationContext.playerInput context) as [[|c1 s1]|],
             (ActivationContext.aiResponse context) as [[|c2 s2]|],
             (ActivationContext.gameHistory context) as [[|e es]|],
             (ActivationContext.memories context) as [ms|];
    cbn [andb JS.truthyStr JS.nonEmpty];
    rewrite ?fold_left_spaced, ?fold_left_spaced_if, ?(slice_last 3), ?slice_last by lia;
    fold depth; simpl;
    rewrite ?string_app_nil_l, ?string_app_nil_r, ?string_app_assoc;
    reflexivity.
Qed.

(** ** Counting activations *)

Lemma orNum_0 x : JS.orNum x 0 = default 0 x.
Proof. destruct x as [v|]; simpl; [|done]. destruct (Z.eqb_spec v 0); auto. Qed.

Lemma bump_id turn n rule : CustomRule.id (bump turn n rule) = CustomRule.id rule.
Proof. by destruct n. Qed.

Lemma bump_succ turn n rule :
  CustomRule.setMetadata turn
    (JS.orNum (CustomRule.activationCount (bump turn n rule)) 0 + 1)
    (bump turn n rule)
  = bump turn (S n) rule.
Proof.
  rewrite orNum_0. destruct n as [|n]; simpl.
  - done.
  - unfold CustomRule.setMetadata; simpl. f_equal. f_equal. lia.
Qed.

Lemma appendTurns_succ turn n entry :
  Some (default [] (appendTurns turn n entry) ++ [turn]) = appendTurns turn (S n) entry.
Proof.
  destruct n as [|n]; simpl; [done|].
  f_equal. rewrite <- app_assoc. f_equal.
  symmetry. apply (replicate_S_end (S n)).
Qed.

Lemma timesActivated_snoc l acts a :
  timesActivated l (acts ++ [a])
  = (timesActivated l acts + if decide (ActivatedRule.rule a = l) then 1 else 0)%nat.
Proof.
  unfold timesActivated. rewrite filter_app, length_app. f_equal.
  rewrite filter_cons, filter_nil. by case_decide.
Qed.

Lemma timesFired_snoc h k acts a :
  timesFired h k (acts ++ [a])
  = (timesFired h k acts
     + if decide (idAt h (ActivatedRule.rule a) = Some k) then 1 else 0)%nat.
Proof.
  unfold timesFired. rewrite filter_app, length_app. f_equal.
  rewrite filter_cons, filter_nil. by case_decide.
Qed.

Lemma timesActivated_pos l acts :
  l ∈ map ActivatedRule.rule acts -> (0 < timesActivated l acts)%nat.
Proof.
  intros (a & -> & Ha)%list_elem_of_fmap. unfold timesActivated.
  assert (a ∈ filter (fun a' => ActivatedRule.rule a' = ActivatedRule.rule a) acts)
    as Hin by (by apply list_elem_of_filter).
  destruct (filter _ acts); [by apply elem_of_nil in Hin | simpl; lia].
Qed.

Lemma timesActivated_0 l acts :
  l ∉ map ActivatedRule.rule acts -> timesActivated l acts = 0%nat.
Proof.
  intros Hnot. unfold timesActivated.
  destruct (filter _ acts) as [|a rest] eqn:Hf; [done|].
  exfalso. apply Hnot.
  assert (a ∈ filter (fun a' => ActivatedRule.rule a' = l) acts)
    as [<- Ha]%list_elem_of_filter by (rewrite Hf; left).
  apply list_elem_of_fmap. eauto.
Qed.

Lemma timesFired_pos h k acts a :
  a ∈ acts -> idAt h (ActivatedRule.rule a) = Some k -> (0 < timesFired h k acts)%nat.
Proof.
  intros Ha Hk. unfold timesFired.
  assert (a ∈ filter (fun a' => idAt h (ActivatedRule.rule a') = Some k) acts)
    as Hin by (by apply list_elem_of_filter).
  destruct (filter _ acts); [by apply elem_of_nil in Hin | simpl; lia].
Qed.

Lemma timesFired_0 h k acts :
  (forall a, a ∈ acts -> idAt h (ActivatedRule.rule a) <> Some k) ->
  timesFired h k acts = 0%nat.
Proof.
  intros Hnot. unfold timesFired.
  destruct (filter _ acts) as [|a rest] eqn:Hf; [done|].
  exfalso.
  assert (a ∈ filter (fun a' => idAt h (ActivatedRule.rule a') = Some k) acts)
    as [Hk Ha]%list_elem_of_filter by (rewrite Hf; left).
  by apply (Hnot a).
Qed.

Lemma setDraws_same w : setDraws (draws w) w = w.
Proof. by destruct w. Qed.

Lemma elem_of_activeRulesOf h rules l :
  l ∈ activeRulesOf h rules <-> l ∈ rules /\ isActiveAt h l = true.
Proof.
  unfold activeRulesOf. rewrite elem_of_sort, !list_elem_of_In, filter_In. done.
Qed.

(** The rules are processed by descending [order]. *)
Lemma activeRulesOf_descending h rules :
  Sorted (fun a b => orderAt h b <= orderAt h a) (activeRulesOf h rules).
Proof. apply (sort_descending (orderAt h)). Qed.

(** ** The pass over the active rules *)

Section Pass.

Variable RuleLogic_value : RuleLogic -> Z.
Variable random : nat -> QArith_base.Q.

Lemma processRule_step_of context budget turn st l :
  step_of budget turn st l
    (processRule RuleLogic_value random context budget turn st l).
Proof.
  unfold processRule.
  destruct (heap (world st) !! l) as [rule|] eqn:Hl; [|by constructor].
  destruct (checkActivationLimits _ rule turn); simpl.
  2:{ replace st with (mkPass (setDraws (draws (world st)) (world st)) (activated st)
                         (skipped st) (totalTokens st)) at 2
        by (rewrite setDraws_same; by destruct st).
      by eapply step_skip. }
  destruct (checkProbability random rule (draws (world st))) as [passed n].
  destruct passed; simpl; [|by eapply step_skip].
  destruct (JS.nonEmpty (collectScanText rule context)); simpl; [|by eapply step_drop].
  destruct (LogicResult.activated _); simpl; [|by eapply step_skip].
  destruct (budget <? totalTokens st + tokenCostOf rule) eqn:Hb; [by eapply step_skip|].
  eapply step_activate; [done|lia].
Qed.

Lemma runPass_invariant (P : Pass -> Prop) context w active :
  P (mkPass w [] [] 0) ->
  (forall st l st', l ∈ active -> P st ->
     step_of (tokenBudgetOf context) (currentTurnOf context) st l st' -> P st') ->
  P (runPass RuleLogic_value random context w active).
Proof.
  intros H0 Hstep. unfold runPass. apply fold_left_invariant; [done|].
  intros st l Hl Hst. eapply Hstep; [done..|]. apply processRule_step_of.
Qed.

Lemma runPass_touches_only context w active :
  touches_only active w (runPass RuleLogic_value random context w active).
Proof.
  apply runPass_invariant.
  - repeat split; simpl; try (intros ? []%elem_of_nil).
    exists []. split; [by rewrite app_nil_r|]. intros ? []%elem_of_nil.
  - intros st l st' Hl Hst Hstep.
    destruct Hstep; [done|..];
      destruct Hst as (Ha & Hs & (new & Hc & Hnew) & Hh); unfold touches_only; simpl.
    + repeat split; [done| |..|done].
      * intros x [?| ->%list_elem_of_singleton]%elem_of_app; auto.
      * exists (new ++ [Logged l o]). rewrite Hc, <- app_assoc. split; [done|].
        intros e [?| ->%list_elem_of_singleton]%elem_of_app; auto.
    + repeat split; [done|done| |done].
      exists (new ++ [Logged l o]). rewrite Hc, <- app_assoc. split; [done|].
      intros e [?| ->%list_elem_of_singleton]%elem_of_app; auto.
    + repeat split; [|done|..].
      * intros x [?| ->%list_elem_of_singleton]%elem_of_app; auto.
      * exists (new ++ [Logged l (Activated (LogicResult.reason logicResult))]).
        rewrite Hc, <- app_assoc. split; [done|].
        intros e [?| ->%list_elem_of_singleton]%elem_of_app; auto.
      * intros l' Hl'. rewrite lookup_insert_ne; [auto|]. intros ->. done.
Qed.

Lemma runPass_effect context w active :
  effect_of (currentTurnOf context) w (runPass RuleLogic_value random context w active).
Proof.
  apply runPass_invariant.
  - split; simpl; intros.
    + by destruct (heap w !! l).
    + done.
  - intros st l st' _ Hst Hstep.
    destruct Hstep as [?|rule n o Hl|rule n o Hl|rule n lr Hl Hb]; [done|done|done|].
    destruct Hst as [Hheap Hhist].
    pose proof (Hheap l) as Hl0. rewrite Hl in Hl0.
    destruct (heap w !! l) as [rule0|] eqn:Hw; simpl in Hl0; [|done].
    injection Hl0 as ->.
    split; simpl.
    + intros l'. rewrite timesActivated_snoc. simpl.
      destruct (decide (l = l')) as [<-|Hne].
      * rewrite lookup_insert_eq, Hw. simpl. f_equal.
        rewrite bump_succ. f_equal. lia.
      * rewrite lookup_insert_ne by done. rewrite Hheap. f_equal. f_equal. lia.
    + intros k. rewrite timesFired_snoc. simpl.
      assert (idAt (heap w) l = Some (CustomRule.id rule0)) as Hid
        by (unfold idAt; by rewrite Hw).
      rewrite bump_id, Hid.
      destruct (decide (CustomRule.id rule0 = k)) as [<-|Hne].
      * rewrite lookup_insert_eq. rewrite decide_True by done.
        rewrite Hhist, appendTurns_succ. f_equal. lia.
      * rewrite lookup_insert_ne by done. rewrite decide_False by congruence.
        rewrite Hhist. f_equal. lia.
Qed.

(** What a call leaves in the store and in the history map, from the
    activated rules it returns. *)
Lemma processRules_effect w rules context :
  let result := (processRules RuleLogic_value random w rules context).1 in
  let w' := (processRules RuleLogic_value random w rules context).2 in
  let turn := currentTurnOf context in
  let acts := ActivationResult.activatedRules result in
  (forall l, heap w' !! l = bump turn (timesActivated l acts) <$> heap w !! l)
  /\ (forall k, activationHistory w' !! k
                = appendTurns turn (timesFired (heap w) k acts)
                    (activationHistory w !! k)).
Proof.
  simpl. destruct (runPass_effect context w (activeRulesOf (heap w) rules)) as [Hh Hk].
  unfold timesActivated, timesFired in *.
  split; intros x; [rewrite Hh | rewrite Hk]; by rewrite sort_perm.
Qed.

(** A rule with no cap and no probability that the logic activates reaches
    the budget test. *)
Lemma processRule_gates_open context budget turn st l rule :
  heap (world st) !! l = Some rule ->
  CustomRule.maxActivationsPerTurn rule = None ->
  CustomRule.probability rule = None ->
  logicActivates RuleLogic_value rule context = true ->
  exists logicResult,
    processRule RuleLogic_value random context budget turn st l
    = if budget <? totalTokens st + tokenCostOf rule
      then skip l SkippedBudget st
      else activateRule l rule logicResult (tokenCostOf rule) turn st.
Proof.
  intros Hl Hcap Hprob [Htext Hact]%andb_true_iff.
  unfold processRule, checkActivationLimits, checkProbability.
  rewrite Hl, Hcap, Hprob. simpl. rewrite Htext, Hact. simpl.
  rewrite setDraws_same.
  replace (mkPass (world st) (activated st) (skipped st) (totalTokens st)) with st
    by (by destruct st).
  eexists. reflexivity.
Qed.

(** ** The claims about [processRules] *)

(** C1: with R1 (priority 10, cost 3000) and R2 (priority 5, cost 3000),
    both active and activating on their keywords, given in either order,
    and a token budget of 5000, exactly R1 is in [activatedRules], R2 is in
    [skippedRules] and is reported as skipped because it would exceed the
    token budget, the total is 3000 and [budgetExceeded] is false. *)
Theorem greedy_budget_admission w context rules l1 l2 r1 r2 :
  heap w !! l1 = Some r1 -> heap w !! l2 = Some r2 -> l1 <> l2 ->
  rules = [l1; l2] \/ rules = [l2; l1] ->
  CustomRule.isActive r1 = true -> CustomRule.isActive r2 = true ->
  CustomRule.order r1 = Some 10 -> CustomRule.order r2 = Some 5 ->
  tokenCostOf r1 = 3000 -> tokenCostOf r2 = 3000 ->
  ActivationContext.tokenBudget context = Some 5000 ->
  CustomRule.maxActivationsPerTurn r1 = None ->
  CustomRule.maxActivationsPerTurn r2 = None ->
  CustomRule.probability r1 = None -> CustomRule.probability r2 = None ->
  logicActivates RuleLogic_value r1 context = true ->
  logicActivates RuleLogic_value r2 context = true ->
  let result := (processRules RuleLogic_value random w rules context).1 in
  let w' := (processRules RuleLogic_value random w rules context).2 in
  map ActivatedRule.rule (ActivationResult.activatedRules result) = [l1]
  /\ ActivationResult.skippedRules result = [l2]
  /\ ActivationResult.totalTokens result = 3000
  /\ ActivationResult.budgetExceeded result = false
  /\ exists reason,
       console w' = console w ++ [Logged l1 (Activated reason); Logged l2 SkippedBudget].
Proof.
  intros Hl1 Hl2 Hne Hrules Hon1 Hon2 Ho1 Ho2 Hc1 Hc2 Hb Hcap1 Hcap2 Hp1 Hp2 Ha1 Ha2.
  assert (activeRulesOf (heap w) rules = [l1; l2]) as Hactive.
  { unfold activeRulesOf.
    assert (List.filter (isActiveAt (heap w)) rules = rules) as ->.
    { destruct Hrules as [-> | ->]; simpl; unfold isActiveAt;
        rewrite Hl1, Hl2, Hon1, Hon2; done. }
    destruct Hrules as [-> | ->]; simpl; unfold orderAt;
      rewrite Hl1, Hl2, Ho1, Ho2; done. }
  assert (tokenBudgetOf context = 5000) as Hbudget
    by (unfold tokenBudgetOf; by rewrite Hb).
  intros result w'. subst result w'. unfold processRules, runPass.
  rewrite Hactive, Hbudget. cbn [fold_left].
  destruct (processRule_gates_open context 5000 (currentTurnOf context)
              (mkPass w [] [] 0) l1 r1 Hl1 Hcap1 Hp1 Ha1) as [res1 ->].
  cbn [totalTokens]. rewrite Hc1.
  change (5000 <? 0 + 3000) with false. cbv iota.
  set (st1 := activateRule l1 r1 res1 3000 (currentTurnOf context) (mkPass w [] [] 0)).
  assert (heap (world st1) !! l2 = Some r2) as Hl2'.
  { subst st1. simpl. by rewrite lookup_insert_ne. }
  destruct (processRule_gates_open context 5000 (currentTurnOf context)
              st1 l2 r2 Hl2' Hcap2 Hp2 Ha2) as [res2 ->].
  rewrite Hc2. subst st1. simpl.
  repeat split; try done.
  eexists. by rewrite <- app_assoc.
Qed.

(** C2: a rule whose [isActive] is false is filtered out before the loop:
    it is in neither [activatedRules] nor [skippedRules], the call reports
    nothing about it and leaves the object as it was. *)
Theorem inactive_rules_excluded w rules context l rule :
  heap w !! l = Some rule ->
  CustomRule.isActive rule = false ->
  let result := (processRules RuleLogic_value random w rules context).1 in
  let w' := (processRules RuleLogic_value random w rules context).2 in
  (l ∉ map ActivatedRule.rule (ActivationResult.activatedRules result))
  /\ (l ∉ ActivationResult.skippedRules result)
  /\ (exists new, console w' = console w ++ new /\ forall e, e ∈ new -> subject e <> l)
  /\ heap w' !! l = Some rule.
Proof.
  intros Hl Hoff result w'. subst result w'. unfold processRules. simpl.
  assert (l ∉ activeRulesOf (heap w) rules) as Hnot.
  { rewrite elem_of_activeRulesOf. unfold isActiveAt. rewrite Hl, Hoff.
    intros [_ ?]. done. }
  destruct (runPass_touches_only context w (activeRulesOf (heap w) rules))
    as (Ha & Hs & (new & Hc & Hnew) & Hh).
  repeat split.
  - intros (a & -> & Hin)%list_elem_of_fmap. apply elem_of_sort in Hin. auto.
  - auto.
  - exists new. split; [done|]. intros e He Heq. apply Hnot. rewrite <- Heq. auto.
  - by rewrite Hh.
Qed.

(** C4 (as amended): no call decreases [activationCount] (an undefined
    count is 0), and a call whose current turn is not below the rule's
    [lastActivated] does not decrease [lastActivated] (an undefined turn is
    below every turn). *)
Theorem metadata_monotone w rules context l rule :
  heap w !! l = Some rule ->
  exists rule',
    heap (processRules RuleLogic_value random w rules context).2 !! l = Some rule'
    /\ countOf rule <= countOf rule'
    /\ (optLe (CustomRule.lastActivated rule) (Some (currentTurnOf context)) ->
        optLe (CustomRule.lastActivated rule) (CustomRule.lastActivated rule')).
Proof.
  intros Hl.
  destruct (processRules_effect w rules context) as [Hh _].
  simpl in Hh. eexists. split; [by rewrite Hh, Hl|].
  unfold bump. destruct (timesActivated _ _) as [|n]; simpl.
  - split; [lia|]. intros _. destruct (CustomRule.lastActivated rule); simpl; [lia|done].
  - unfold countOf at 2. simpl. split; [lia|done].
Qed.

(** C7: a call changes rule objects and history entries through
    activations only.  An activated rule has the current turn appended to
    the history entry of its id, once per activation, its [lastActivated]
    set to the current turn and its [activationCount] raised by the number
    of its activations; a rule that is not activated is the object it was,
    and the history entry of an id that no activated rule has is the entry it
    was: with unique rule ids, as in the data model, that is the entry of
    every rule that is not activated. *)
Theorem only_activations_mutate w rules context :
  let result := (processRules RuleLogic_value random w rules context).1 in
  let w' := (processRules RuleLogic_value random w rules context).2 in
  let turn := currentTurnOf context in
  let acts := ActivationResult.activatedRules result in
  (forall l rule,
      heap w !! l = Some rule -> l ∈ map ActivatedRule.rule acts ->
      (0 < timesActivated l acts)%nat
      /\ heap w' !! l
         = Some (CustomRule.setMetadata turn
                   (countOf rule + Z.of_nat (timesActivated l acts)) rule)
      /\ (0 < timesFired (heap w) (CustomRule.id rule) acts)%nat
      /\ activationHistory w' !! CustomRule.id rule
         = Some (default [] (activationHistory w !! CustomRule.id rule)
                 ++ replicate (timesFired (heap w) (CustomRule.id rule) acts) turn))
  /\ (forall l, l ∉ map ActivatedRule.rule acts -> heap w' !! l = heap w !! l)
  /\ (forall k, (forall a, a ∈ acts -> idAt (heap w) (ActivatedRule.rule a) <> Some k) ->
                activationHistory w' !! k = activationHistory w !! k)
  /\ (uniqueIds (heap w) ->
      forall l rule,
        heap w !! l = Some rule -> l ∉ map ActivatedRule.rule acts ->
        heap w' !! l = Some rule
        /\ activationHistory w' !! CustomRule.id rule
           = activationHistory w !! CustomRule.id rule).
Proof.
  intros result w' turn acts.
  destruct (processRules_effect w rules context) as [Hh Hk].
  fold result w' turn acts in Hh, Hk.
  assert (forall l, l ∉ map ActivatedRule.rule acts -> heap w' !! l = heap w !! l)
    as Hsame.
  { intros l Hnot. rewrite Hh, (timesActivated_0 l acts Hnot). simpl.
    by destruct (heap w !! l). }
  assert (forall k,
             (forall a, a ∈ acts -> idAt (heap w) (ActivatedRule.rule a) <> Some k) ->
             activationHistory w' !! k = activationHistory w !! k) as Hentry.
  { intros k Hnot. by rewrite Hk, (timesFired_0 _ k acts Hnot). }
  split; [|split; [exact Hsame|split; [exact Hentry|]]].
  2:{ intros Huniq l rule Hl Hnot. split; [by rewrite Hsame|].
      apply Hentry. intros a Ha Hid. apply Hnot.
      unfold idAt in Hid.
      destruct (heap w !! ActivatedRule.rule a) as [rule'|] eqn:Ha'; [|done].
      injection Hid as Hid.
      rewrite <- (Huniq _ _ _ _ Ha' Hl Hid).
      apply list_elem_of_fmap. eauto. }
  - intros l rule Hl Hin.
    pose proof (timesActivated_pos l acts Hin) as Hpos.
    apply list_elem_of_fmap in Hin as (a & -> & Ha).
    assert (0 < timesFired (heap w) (CustomRule.id rule) acts)%nat as Hfired.
    { apply (timesFired_pos _ _ _ a); [done|]. unfold idAt. by rewrite Hl. }
    repeat split; [done| |done|].
    + rewrite Hh, Hl. simpl. f_equal. unfold bump.
      destruct (timesActivated _ acts); [lia|done].
    + rewrite Hk. unfold appendTurns.
      destruct (timesFired _ _ acts); [lia|done].
Qed.

(** C9: when the resolved token budget is not negative, the total of a
    result is within the budget and its [budgetExceeded] flag is false. *)
Theorem budget_never_exceeded w rules context :
  0 <= tokenBudgetOf context ->
  ActivationResult.totalTokens (processRules RuleLogic_value random w rules context).1
    <= tokenBudgetOf context
  /\ ActivationResult.budgetExceeded
       (processRules RuleLogic_value random w rules context).1 = false.
Proof.
  intros Hb. unfold processRules. simpl.
  assert (totalTokens (runPass RuleLogic_value random context w
                         (activeRulesOf (heap w) rules))
          <= tokenBudgetOf context) as Hle.
  { apply (runPass_invariant (fun st => totalTokens st <= tokenBudgetOf context));
      [done|].
    intros st l st' _ Hst Hs. destruct Hs; simpl; lia. }
  split; [done|]. apply Z.ltb_ge. done.
Qed.

(** C10: a [scanDepth] of 0 on a rule and a [tokenBudget] of 0 in a context
    are read as absent: the depth is the context's scan depth (5 when that
    one is absent or 0) and the scan text is that of the rule without a
    scan depth; the budget is 5000 and the call is that of the context
    without a budget. *)
Theorem zero_counts_as_absent :
  (forall rule context,
      depthOf (withScanDepth (Some 0) rule) context
      = match ActivationContext.scanDepth context with
        | Some d => if d =? 0 then 5 else d
        | None => 5
        end
      /\ collectScanText (withScanDepth (Some 0) rule) context
         = collectScanText (withScanDepth None rule) context)
  /\ (forall w rules context,
        tokenBudgetOf (withTokenBudget (Some 0) context) = 5000
        /\ processRules RuleLogic_value random w rules (withTokenBudget (Some 0) context)
           = processRules RuleLogic_value random w rules (withTokenBudget None context)).
Proof.
  split.
  - intros rule context. split; reflexivity.
  - intros w rules context. split; reflexivity.
Qed.

(** ** The claims about matching and logic *)

(** C3 (as amended): the two calls of [checkKeywordMatch] are case
    sensitive exactly when the rule's flag or the context's flag is true,
    and match whole words exactly when the rule's flag or the context's flag
    is true: a rule overrides the context by setting a flag to true, and a
    flag it sets to false is read as a flag it leaves unset. *)
Theorem keyword_flags_are_disjunctions rule context scanText :
  let caseSensitive :=
    JS.truthy (CustomRule.caseSensitive rule)
    || JS.truthy (ActivationContext.caseSensitive context) in
  let matchWholeWords :=
    JS.truthy (CustomRule.matchWholeWords rule)
    || JS.truthy (ActivationContext.matchWholeWords context) in
  primaryMatchOf rule context scanText
  = checkKeywordMatch scanText (default [] (CustomRule.keywords rule))
      (Some caseSensitive) (Some matchWholeWords)
  /\ secondaryMatchOf rule context scanText
     = checkKeywordMatch scanText (default [] (CustomRule.secondaryKeywords rule))
         (Some caseSensitive) (Some matchWholeWords).
Proof.
  unfold primaryMatchOf, secondaryMatchOf, checkKeywordMatch, JS.orBool.
  destruct (CustomRule.caseSensitive rule) as [[]|],
           (ActivationContext.caseSensitive context) as [[]|],
           (CustomRule.matchWholeWords rule) as [[]|],
           (ActivationContext.matchWholeWords context) as [[]|]; simpl; done.
Qed.

(** C5: under [NOT_ALL] a rule that is not always active activates exactly
    when the number of matched keywords, primary plus secondary, is above 0
    and below the number of configured keywords (so never with no keyword
    configured, with none matched or with all matched). *)
Theorem NOT_ALL_partial_match rule primaryMatches secondaryMatches allText :
  logicOf RuleLogic_value rule = NOT_ALL ->
  JS.truthy (CustomRule.alwaysActive rule) = false ->
  LogicResult.activated
    (evaluateRuleLogic RuleLogic_value rule primaryMatches secondaryMatches allText)
  = true
  <-> (0 < length primaryMatches + length secondaryMatches
       < lengthOr0 (CustomRule.keywords rule)
         + lengthOr0 (CustomRule.secondaryKeywords rule))%nat.
Proof.
  intros Hlogic Hconst. unfold evaluateRuleLogic. rewrite Hlogic, Hconst.
  rewrite length_app.
  destruct (lengthOr0 (CustomRule.keywords rule)) as [|p];
    destruct (lengthOr0 (CustomRule.secondaryKeywords rule)) as [|s];
    simpl negb; simpl andb; cbv iota.
  1: { simpl. split; [done|lia]. }
  all: match goal with |- context [(?a <? ?b)%nat && (0 <? ?c)%nat] =>
         destruct (Nat.ltb_spec a b); destruct (Nat.ltb_spec 0 c) end; simpl;
       split; try done; lia.
Qed.

End Pass.

(** ** Prompt formatting *)

(** C8: [formatForPrompt] returns the empty string exactly when no rule is
    activated; with N >= 1 activated rules and T total tokens the block ends
    with the footer of N and T, and a footer read at the end of the block is
    the footer of N and T and of no other pair. *)
Theorem format_footer_round_trip h result :
  let N := length (ActivationResult.activatedRules result) in
  let T := ActivationResult.totalTokens result in
  (formatForPrompt h result = EmptyString <-> ActivationResult.activatedRules result = [])
  /\ (ActivationResult.activatedRules result <> [] ->
      (exists body, formatForPrompt h result = body +:+ footer N T)
      /\ forall body n t, formatForPrompt h result = body +:+ footer n t -> n = N /\ t = T).
Proof.
  intros N T.
  assert (ActivationResult.activatedRules result <> [] ->
          exists body, formatForPrompt h result = body +:+ footer N T) as Hfooter.
  { intros Hne. unfold formatForPrompt. subst N T.
    destruct (ActivationResult.activatedRules result) as [|a acts] eqn:Hacts; [done|].
    eexists. unfold footer. reflexivity. }
  split; [split|].
  - intros Hempty.
    destruct (ActivationResult.activatedRules result) as [|a acts] eqn:Hacts; [done|].
    destruct Hfooter as [body Hbody]; [done|].
    rewrite Hbody in Hempty. by apply string_app_not_empty in Hempty.
  - intros Hnil. unfold formatForPrompt. by rewrite Hnil.
  - intros Hne. split; [by apply Hfooter|].
    intros body n t Hbody. destruct (Hfooter Hne) as [body0 Hbody0].
    rewrite Hbody0 in Hbody. apply footer_read_back in Hbody as [-> ->]. done.
Qed.

(** ** The claims on the sample inputs *)

Lemma greedy_budget_admission_witness :
  let result :=
    (processRules sampleValues sampleRandom sampleWorld [1%nat; 0%nat] (sampleContext 1)).1 in
  let w' :=
    (processRules sampleValues sampleRandom sampleWorld [1%nat; 0%nat] (sampleContext 1)).2 in
  (heap sampleWorld !! 0%nat = Some R1 /\ heap sampleWorld !! 1%nat = Some R2
   /\ CustomRule.order R1 = Some 10 /\ CustomRule.order R2 = Some 5
   /\ tokenCostOf R1 = 3000 /\ tokenCostOf R2 = 3000
   /\ ActivationContext.tokenBudget (sampleContext 1) = Some 5000
   /\ logicActivates sampleValues R1 (sampleContext 1) = true
   /\ logicActivates sampleValues R2 (sampleContext 1) = true)
  /\ map ActivatedRule.rule (ActivationResult.activatedRules result) = [0%nat]
  /\ ActivationResult.skippedRules result = [1%nat]
  /\ ActivationResult.totalTokens result = 3000
  /\ ActivationResult.budgetExceeded result = false
  /\ exists reason,
       console w'
       = console sampleWorld
         ++ [Logged 0%nat (Activated reason); Logged 1%nat SkippedBudget].
Proof.
  split.
  - repeat split; vm_compute; reflexivity.
  - apply (greedy_budget_admission sampleValues sampleRandom sampleWorld
             (sampleContext 1) [1%nat; 0%nat] 0%nat 1%nat R1 R2);
      try (vm_compute; reflexivity).
    + lia.
    + right. reflexivity.
Defined.

Lemma inactive_rules_excluded_witness :
  let result :=
    (processRules sampleValues sampleRandom sampleWorld [0%nat; 1%nat; 2%nat]
       (sampleContext 1)).1 in
  let w' :=
    (processRules sampleValues sampleRandom sampleWorld [0%nat; 1%nat; 2%nat]
       (sampleContext 1)).2 in
  (heap sampleWorld !! 2%nat = Some R3 /\ CustomRule.isActive R3 = false)
  /\ (2%nat ∉ map ActivatedRule.rule (ActivationResult.activatedRules result))
  /\ (2%nat ∉ ActivationResult.skippedRules result)
  /\ (exists new, console w' = console sampleWorld ++ new
                  /\ forall e, e ∈ new -> subject e <> 2%nat)
  /\ heap w' !! 2%nat = Some R3.
Proof.
  split.
  - split; vm_compute; reflexivity.
  - apply (inactive_rules_excluded sampleValues sampleRandom sampleWorld
             [0%nat; 1%nat; 2%nat] (sampleContext 1) 2%nat R3);
      vm_compute; reflexivity.
Defined.

Lemma metadata_monotone_witness :
  heap sampleWorld !! 0%nat = Some R1
  /\ exists rule',
       heap (processRules sampleValues sampleRandom sampleWorld [0%nat; 1%nat]
               (sampleContext 4)).2 !! 0%nat = Some rule'
       /\ countOf R1 <= countOf rule'
       /\ (optLe (CustomRule.lastActivated R1) (Some (currentTurnOf (sampleContext 4))) ->
           optLe (CustomRule.lastActivated R1) (CustomRule.lastActivated rule')).
Proof.
  split.
  - vm_compute. reflexivity.
  - apply (metadata_monotone sampleValues sampleRandom sampleWorld [0%nat; 1%nat]
             (sampleContext 4) 0%nat R1).
    vm_compute. reflexivity.
Defined.

Lemma only_activations_mutate_witness :
  let result :=
    (processRules sampleValues sampleRandom sampleWorld [0%nat; 1%nat; 2%nat]
       (sampleContext 4)).1 in
  let w' :=
    (processRules sampleValues sampleRandom sampleWorld [0%nat; 1%nat; 2%nat]
       (sampleContext 4)).2 in
  let acts := ActivationResult.activatedRules result in
  (heap sampleWorld !! 0%nat = Some R1 /\ 0%nat ∈ map ActivatedRule.rule acts
   /\ heap sampleWorld !! 1%nat = Some R2 /\ (1%nat ∉ map ActivatedRule.rule acts)
   /\ uniqueIds (heap sampleWorld))
  /\ heap w' !! 0%nat
     = Some (CustomRule.setMetadata 4 (countOf R1 + Z.of_nat (timesActivated 0%nat acts)) R1)
  /\ activationHistory w' !! CustomRule.id R1
     = Some (default [] (activationHistory sampleWorld !! CustomRule.id R1)
             ++ replicate (timesFired (heap sampleWorld) (CustomRule.id R1) acts) 4)
  /\ heap w' !! 1%nat = Some R2
  /\ activationHistory w' !! CustomRule.id R2
     = activationHistory sampleWorld !! CustomRule.id R2.
Proof.
  intros result w' acts.
  assert (heap sampleWorld !! 0%nat = Some R1) as H0 by (vm_compute; reflexivity).
  assert (heap sampleWorld !! 1%nat = Some R2) as H1 by (vm_compute; reflexivity).
  assert (0%nat ∈ map ActivatedRule.rule acts) as Hin by (vm_compute; left).
  assert (1%nat ∉ map ActivatedRule.rule acts) as Hout.
  { vm_compute. intros [Heq|[]%elem_of_nil]%elem_of_cons. discriminate Heq. }
  assert (uniqueIds (heap sampleWorld)) as Huniq.
  { intros l1 l2 r1 r2 Hr1 Hr2 Hid. unfold sampleWorld in Hr1, Hr2.
    cbn [heap] in Hr1, Hr2. rewrite !lookup_insert, lookup_empty in Hr1, Hr2.
    repeat case_decide; simplify_eq; try reflexivity; vm_compute in Hid; discriminate. }
  destruct (only_activations_mutate sampleValues sampleRandom sampleWorld
              [0%nat; 1%nat; 2%nat] (sampleContext 4)) as (Hact & _ & _ & Hrest).
  destruct (Hact 0%nat R1 H0 Hin) as (_ & Hheap & _ & Hhist).
  destruct (Hrest Huniq 1%nat R2 H1 Hout) as [Hheap1 Hhist1].
  split; [by repeat split|].
  split; [exact Hheap|]. split; [exact Hhist|]. split; [exact Hheap1|exact Hhist1].
Defined.

Lemma budget_never_exceeded_witness :
  0 <= tokenBudgetOf (sampleContext 1)
  /\ ActivationResult.totalTokens
       (processRules sampleValues sampleRandom sampleWorld [0%nat; 1%nat; 2%nat]
          (sampleContext 1)).1
     <= tokenBudgetOf (sampleContext 1)
  /\ ActivationResult.budgetExceeded
       (processRules sampleValues sampleRandom sampleWorld [0%nat; 1%nat; 2%nat]
          (sampleContext 1)).1 = false.
Proof.
  assert (0 <= tokenBudgetOf (sampleContext 1)) as Hb by (vm_compute; discriminate).
  split; [exact Hb|].
  exact (budget_never_exceeded sampleValues sampleRandom sampleWorld
           [0%nat; 1%nat; 2%nat] (sampleContext 1) Hb).
Defined.

Lemma NOT_ALL_partial_match_witness :
  (logicOf sampleValues partialRule = NOT_ALL
   /\ JS.truthy (CustomRule.alwaysActive partialRule) = false)
  /\ (LogicResult.activated
        (evaluateRuleLogic sampleValues partialRule ["dragon"] [] "a dragon") = true
      <-> (0 < length ["dragon"] + length (@nil string)
           < lengthOr0 (CustomRule.keywords partialRule)
             + lengthOr0 (CustomRule.secondaryKeywords partialRule))%nat).
Proof.
  split.
  - split; reflexivity.
  - apply (NOT_ALL_partial_match sampleValues partialRule ["dragon"] [] "a dragon");
      reflexivity.
Defined.

Lemma scan_text_sources_witness :
  0 < depthOf playerOnlyRule narratedContext
  /\ collectScanText playerOnlyRule narratedContext
     = JS.trim (currentText playerOnlyRule narratedContext
                +:+ aiHistoryText playerOnlyRule
                      (default [] (ActivationContext.gameHistory narratedContext))
                +:+ playerHistoryText playerOnlyRule
                      (Z.to_nat (depthOf playerOnlyRule narratedContext))
                      (default [] (ActivationContext.gameHistory narratedContext))
                +:+ memoryText playerOnlyRule
                      (Z.to_nat (depthOf playerOnlyRule narratedContext))
                      (default [] (ActivationContext.memories narratedContext))).
Proof.
  assert (0 < depthOf playerOnlyRule narratedContext) as Hd by (vm_compute; reflexivity).
  split; [exact Hd|].
  exact (scan_text_sources playerOnlyRule narratedContext Hd).
Defined.

Lemma format_footer_round_trip_witness :
  let result :=
    (processRules sampleValues sampleRandom sampleWorld [0%nat; 1%nat; 2%nat]
       (sampleContext 1)).1 in
  let h :=
    heap (processRules sampleValues sampleRandom sampleWorld [0%nat; 1%nat; 2%nat]
            (sampleContext 1)).2 in
  ActivationResult.activatedRules result <> []
  /\ (exists body,
        formatForPrompt h result
        = body +:+ footer (length (ActivationResult.activatedRules result))
                     (ActivationResult.totalTokens result))
  /\ (forall body n t,
        formatForPrompt h result = body +:+ footer n t ->
        n = length (ActivationResult.activatedRules result)
        /\ t = ActivationResult.totalTokens result).
Proof.
  intros result h.
  assert (ActivationResult.activatedRules result <> []) as Hne
    by (vm_compute; discriminate).
  split; [exact Hne|].
  exact (proj2 (format_footer_round_trip h result) Hne).
Defined.

(** ** Where the code departs from three claims as they are stated *)

(** C3 as stated fails: the rule sets [caseSensitive] to false, the context
    default is true; matching with the rule's value finds "Dragon" in
    "A dragon appears", the engine matches with the context's value, finds
    nothing and does not activate the rule. *)
Lemma explicit_false_does_not_override :
  let scanText := collectScanText insensitiveRule sensitiveContext in
  let w := mkWorld (<[0%nat := insensitiveRule]> ∅) ∅ 0 [] in
  CustomRule.caseSensitive insensitiveRule = Some false
  /\ ActivationContext.caseSensitive sensitiveContext = Some true
  /\ KeywordMatch.matchedKeywords
       (checkKeywordMatch scanText ["Dragon"]
          (CustomRule.caseSensitive insensitiveRule)
          (CustomRule.matchWholeWords insensitiveRule)) = ["Dragon"]
  /\ KeywordMatch.matchedKeywords (primaryMatchOf insensitiveRule sensitiveContext scanText)
     = []
  /\ ActivationResult.activatedRules
       (processRules sampleValues sampleRandom w [0%nat] sensitiveContext).1 = [].
Proof. vm_compute. repeat split; reflexivity. Qed.

(** C4 as stated fails: two calls in a row on the same engine, at turn 5 and
    then at turn 3, leave [lastActivated] at 5 and then at 3. *)
Lemma lastActivated_can_decrease :
  let w1 :=
    (processRules sampleValues sampleRandom sampleWorld [0%nat] (sampleContext 5)).2 in
  let w2 := (processRules sampleValues sampleRandom w1 [0%nat] (sampleContext 3)).2 in
  CustomRule.lastActivated <$> heap w1 !! 0%nat = Some (Some 5)
  /\ CustomRule.lastActivated <$> heap w2 !! 0%nat = Some (Some 3)
  /\ ~ optLe (Some 5) (Some 3).
Proof.
  vm_compute. repeat split; try reflexivity. intros H. apply H. reflexivity.
Qed.

(** C6 as stated fails: with AI-output scanning switched off for the rule,
    the last 3 entries of the AI are not in the scan text. *)
Lemma ai_history_follows_the_toggle :
  CustomRule.scanAIOutput playerOnlyRule = Some false
  /\ lastThreeModelText (default [] (ActivationContext.gameHistory narratedContext))
     = "dragon "
  /\ scanTextWithAIHistoryAlways playerOnlyRule narratedContext = "hello dragon"
  /\ collectScanText playerOnlyRule narratedContext = "hello"
  /\ collectScanText playerOnlyRule narratedContext
     <> scanTextWithAIHistoryAlways playerOnlyRule narratedContext.
Proof.
  vm_compute. repeat split; try reflexivity. discriminate.
Qed.

(** ** Further properties of the engine *)

Section GateLemmas.
Variable RuleLogic_value : RuleLogic -> Z.
Variable random : nat -> QArith_base.Q.

Lemma nonEmpty_false s : JS.nonEmpty s = false -> s = EmptyString.
Proof. by destruct s. Qed.

Lemma processRule_gate_of context budget turn st l :
  gate_of RuleLogic_value random context budget turn st l
    (processRule RuleLogic_value random context budget turn st l).
Proof.
  unfold processRule.
  destruct (heap (world st) !! l) as [rule|] eqn:Hl; [|by constructor].
  destruct (checkActivationLimits _ rule turn) eqn:Hcap; simpl;
    [|by eapply gate_limit].
  destruct (checkProbability random rule (draws (world st))) as [passed n] eqn:Hp.
  fold (withDraws n st).
  destruct passed; simpl; [|by eapply gate_probability].
  destruct (JS.nonEmpty (collectScanText rule context)) eqn:Htext; simpl.
  2:{ eapply gate_no_text; eauto using nonEmpty_false. }
  fold (logicResultOf RuleLogic_value rule context).
  destruct (LogicResult.activated (logicResultOf RuleLogic_value rule context)) eqn:Hact;
    simpl; [|by eapply gate_logic].
  change (totalTokens (withDraws n st)) with (totalTokens st).
  destruct (Z.ltb_spec budget (totalTokens st + tokenCostOf rule)).
  - by eapply gate_budget.
  - by eapply gate_activate.
Qed.

Lemma runPass_gate_invariant (P : Pass -> Prop) context w active :
  P (mkPass w [] [] 0) ->
  (forall st l st', l ∈ active -> P st ->
     gate_of RuleLogic_value random context (tokenBudgetOf context)
       (currentTurnOf context) st l st' -> P st') ->
  P (runPass RuleLogic_value random context w active).
Proof.
  intros H0 Hstep. unfold runPass. apply fold_left_invariant; [done|].
  intros st l Hl Hst. eapply Hstep; [done..|]. apply processRule_gate_of.
Qed.
End GateLemmas.

Lemma bump_scanText turn n rule context :
  collectScanText (bump turn n rule) context = collectScanText rule context.
Proof. by destruct n. Qed.

Lemma bump_tokenCostOf turn n rule : tokenCostOf (bump turn n rule) = tokenCostOf rule.
Proof. by destruct n. Qed.

Lemma bump_order turn n rule : CustomRule.order (bump turn n rule) = CustomRule.order rule.
Proof. by destruct n. Qed.

Lemma bump_probability turn n rule :
  CustomRule.probability (bump turn n rule) = CustomRule.probability rule.
Proof. by destruct n. Qed.

Lemma bump_cap turn n rule :
  CustomRule.maxActivationsPerTurn (bump turn n rule)
  = CustomRule.maxActivationsPerTurn rule.
Proof. by destruct n. Qed.

Lemma bump_isActive turn n rule :
  CustomRule.isActive (bump turn n rule) = CustomRule.isActive rule.
Proof. by destruct n. Qed.

Lemma bump_limits hist turn' turn n rule :
  checkActivationLimits hist (bump turn n rule) turn'
  = checkActivationLimits hist rule turn'.
Proof. by destruct n. Qed.

Lemma effect_of_lookup turn w st l rule' :
  effect_of turn w st -> heap (world st) !! l = Some rule' ->
  exists rule n, heap w !! l = Some rule /\ rule' = bump turn n rule.
Proof.
  intros [Hh _] Hl. rewrite Hh in Hl.
  destruct (heap w !! l) as [rule|]; [|done]. injection Hl as <-. eauto.
Qed.

Section More.
Variable RuleLogic_value : RuleLogic -> Z.
Variable random : nat -> QArith_base.Q.

Lemma bump_logicResultOf turn n rule context :
  logicResultOf RuleLogic_value (bump turn n rule) context
  = logicResultOf RuleLogic_value rule context.
Proof. by destruct n. Qed.

Lemma gate_of_step_of context budget turn st l st' :
  gate_of RuleLogic_value random context budget turn st l st' ->
  step_of budget turn st l st'.
Proof.
  intros []; by econstructor.
Qed.

Lemma effect_of_step turn w budget st l st' :
  effect_of turn w st -> step_of budget turn st l st' -> effect_of turn w st'.
Proof.
  intros Hst Hstep.
  destruct Hstep as [?|rule n o Hl|rule n o Hl|rule n lr Hl Hb]; [done|done|done|].
  destruct Hst as [Hheap Hhist].
  pose proof (Hheap l) as Hl0. rewrite Hl in Hl0.
  destruct (heap w !! l) as [rule0|] eqn:Hw; simpl in Hl0; [|done].
  injection Hl0 as ->.
  split; simpl.
  - intros l'. rewrite timesActivated_snoc. simpl.
    destruct (decide (l = l')) as [<-|Hne].
    + rewrite lookup_insert_eq, Hw. simpl. f_equal.
      rewrite bump_succ. f_equal. lia.
    + rewrite lookup_insert_ne by done. rewrite Hheap. f_equal. f_equal. lia.
  - intros k. rewrite timesFired_snoc. simpl.
    assert (idAt (heap w) l = Some (CustomRule.id rule0)) as Hid
      by (unfold idAt; by rewrite Hw).
    rewrite bump_id, Hid.
    destruct (decide (CustomRule.id rule0 = k)) as [<-|Hne].
    + rewrite lookup_insert_eq. rewrite decide_True by done.
      rewrite Hhist, appendTurns_succ. f_equal. lia.
    + rewrite lookup_insert_ne by done. rewrite decide_False by congruence.
      rewrite Hhist. f_equal. lia.
Qed.

(** invariant with the effect carried along *)
Lemma runPass_gate_effect_invariant (P : Pass -> Prop) context w active :
  P (mkPass w [] [] 0) ->
  (forall st l st', l ∈ active -> effect_of (currentTurnOf context) w st -> P st ->
     gate_of RuleLogic_value random context (tokenBudgetOf context)
       (currentTurnOf context) st l st' -> P st') ->
  P (runPass RuleLogic_value random context w active).
Proof.
  intros H0 Hstep.
  apply (runPass_gate_invariant RuleLogic_value random
           (fun st => effect_of (currentTurnOf context) w st /\ P st)).
  - split; [|done]. split; simpl; intros; [by destruct (heap w !! l)|done].
  - intros st l st' Hl [He HP] Hg. split.
    + eapply effect_of_step; [done|]. eapply gate_of_step_of; done.
    + eauto.
Qed.

Lemma checkProbability_passed rule d n :
  checkProbability random rule d = (true, n) ->
  forall p, CustomRule.probability rule = Some p -> 0 < p.
Proof.
  unfold checkProbability. intros H p Hp. rewrite Hp in H.
  destruct (Z.leb_spec 100 p); [lia|].
  destruct (Z.leb_spec p 0); [discriminate|lia].
Qed.

Lemma runPass_justified context w active :
  Forall (justified RuleLogic_value (heap w) context)
    (activated (runPass RuleLogic_value random context w active)).
Proof.
  apply runPass_gate_effect_invariant; [constructor|].
  intros st l st' _ He HP Hg.
  destruct Hg as [| | | | | |rule' n Hl Hcap Hprob Htext Hact Hb]; try done.
  simpl. apply Forall_app. split; [done|]. constructor; [|constructor].
  destruct (effect_of_lookup _ _ _ _ _ He Hl) as (rule & k & Hw & ->).
  exists rule. simpl.
  rewrite bump_scanText in Htext. rewrite bump_logicResultOf in Hact |- *.
  rewrite bump_tokenCostOf, bump_order.
  repeat split; try done.
  intros p Hp. eapply checkProbability_passed; [done|]. by rewrite bump_probability.
Qed.

(** X1: every entry of [activatedRules] refers to an active rule of the input
    that the gates let through: its probability, when set, is positive, its
    scan text is not empty, its logic activates, and the entry carries the
    reason, the matched keywords, the cost and the priority computed from that
    rule. *)
Theorem activated_rules_are_justified w rules context a :
  a ∈ ActivationResult.activatedRules
        (processRules RuleLogic_value random w rules context).1 ->
  exists rule,
    heap w !! ActivatedRule.rule a = Some rule
    /\ ActivatedRule.rule a ∈ rules
    /\ CustomRule.isActive rule = true
    /\ (forall p, CustomRule.probability rule = Some p -> 0 < p)
    /\ JS.nonEmpty (collectScanText rule context) = true
    /\ LogicResult.activated (logicResultOf RuleLogic_value rule context) = true
    /\ ActivatedRule.activationReason a
       = LogicResult.reason (logicResultOf RuleLogic_value rule context)
    /\ ActivatedRule.matchedKeywords a
       = LogicResult.matchedKeywords (logicResultOf RuleLogic_value rule context)
    /\ ActivatedRule.tokenCost a = tokenCostOf rule
    /\ ActivatedRule.priority a = JS.orNum (CustomRule.order rule) 0.
Proof.
  simpl. rewrite elem_of_sort. intros Ha.
  pose proof (runPass_justified context w (activeRulesOf (heap w) rules)) as Hj.
  rewrite Forall_forall in Hj. destruct (Hj a Ha) as (rule & Hl & Hp & Ht & Hact & Heq).
  destruct (runPass_touches_only RuleLogic_value random context w
              (activeRulesOf (heap w) rules)) as (Hin & _).
  apply Hin, elem_of_activeRulesOf in Ha as [Hrules Hon].
  unfold isActiveAt in Hon. rewrite Hl in Hon.
  exists rule. rewrite Heq; simpl. repeat split; done.
Qed.
End More.

Lemma countTurn_snoc turn entry :
  countTurn turn (Some (default [] entry ++ [turn])) = S (countTurn turn entry).
Proof.
  unfold countTurn. simpl. rewrite List.filter_app, length_app. simpl.
  rewrite Z.eqb_refl. simpl. lia.
Qed.

Lemma checkActivationLimits_capped hist rule turn c :
  CustomRule.maxActivationsPerTurn rule = Some c -> 0 < c ->
  checkActivationLimits hist rule turn
  = (Z.of_nat (countTurn turn (hist !! CustomRule.id rule)) <? c).
Proof.
  intros Hc Hpos. unfold checkActivationLimits. rewrite Hc. simpl.
  destruct (Z.eqb_spec c 0); [lia|]. destruct (Z.leb_spec c 0); [lia|]. done.
Qed.

Section Caps.
Variable RuleLogic_value : RuleLogic -> Z.
Variable random : nat -> QArith_base.Q.

(** X2: a rule whose history already holds as many activations at the current
    turn as its cap [maxActivationsPerTurn] (a positive cap) is not activated
    by the call. *)
Theorem reached_cap_blocks_activation w rules context l rule c :
  heap w !! l = Some rule ->
  CustomRule.maxActivationsPerTurn rule = Some c -> 0 < c ->
  c <= Z.of_nat (countTurn (currentTurnOf context)
                   (activationHistory w !! CustomRule.id rule)) ->
  l ∉ map ActivatedRule.rule
        (ActivationResult.activatedRules
           (processRules RuleLogic_value random w rules context).1).
Proof.
  intros Hl Hc Hpos Hfull. simpl.
  intros (a & Heq & Ha)%list_elem_of_fmap. apply elem_of_sort in Ha.
  symmetry in Heq. revert a Ha Heq.
  apply (runPass_gate_effect_invariant RuleLogic_value random
           (fun st =>
              (c <= Z.of_nat (countTurn (currentTurnOf context)
                                (activationHistory (world st) !! CustomRule.id rule)))
              /\ forall a, a ∈ activated st -> ActivatedRule.rule a <> l)).
  - split; [done|]. intros a []%elem_of_nil.
  - intros st l' st' _ He [Hfull' HP] Hg. destruct Hg; try done. simpl. split.
    + destruct (decide (CustomRule.id rule0 = CustomRule.id rule)) as [Heq|Hne].
      * rewrite Heq, lookup_insert_eq, countTurn_snoc. lia.
      * by rewrite lookup_insert_ne.
    + intros a [?| ->%list_elem_of_singleton]%elem_of_app; [auto|]. simpl. intros ->.
      destruct (effect_of_lookup _ _ _ _ _ He H) as (rule1 & k & Hw & ->).
      rewrite Hl in Hw. injection Hw as <-.
      rewrite bump_limits in H0.
      rewrite (checkActivationLimits_capped _ _ _ c Hc Hpos) in H0.
      apply Z.ltb_lt in H0. lia.
Qed.

(** X3: with unique rule ids, a call never takes the number of activations of
    a capped rule at the current turn above its cap (or above what it was when
    the call started, if that was already more). *)
Theorem cap_is_never_exceeded w rules context l rule c :
  uniqueIds (heap w) ->
  heap w !! l = Some rule ->
  CustomRule.maxActivationsPerTurn rule = Some c -> 0 < c ->
  Z.of_nat (countTurn (currentTurnOf context)
              (activationHistory (processRules RuleLogic_value random w rules context).2
               !! CustomRule.id rule))
  <= Z.max c (Z.of_nat (countTurn (currentTurnOf context)
                          (activationHistory w !! CustomRule.id rule))).
Proof.
  intros Huniq Hl Hc Hpos. simpl.
  apply (runPass_gate_effect_invariant RuleLogic_value random
           (fun st =>
              Z.of_nat (countTurn (currentTurnOf context)
                          (activationHistory (world st) !! CustomRule.id rule))
              <= Z.max c (Z.of_nat (countTurn (currentTurnOf context)
                                      (activationHistory w !! CustomRule.id rule))))).
  - simpl. lia.
  - intros st l' st' _ He HP Hg. destruct Hg; try done. simpl.
    destruct (effect_of_lookup _ _ _ _ _ He H) as (rule1 & k & Hw & ->).
    rewrite bump_id.
    destruct (decide (CustomRule.id rule1 = CustomRule.id rule)) as [Heq|Hne].
    + assert (l' = l) as -> by (eapply Huniq; done).
      rewrite Hl in Hw. injection Hw as <-.
      rewrite lookup_insert_eq, countTurn_snoc.
      rewrite bump_limits, (checkActivationLimits_capped _ _ _ c Hc Hpos) in H0.
      apply Z.ltb_lt in H0. lia.
    + by rewrite lookup_insert_ne.
Qed.
End Caps.



Lemma sort_sorted_id {A} (cmp : A -> A -> Z) l :
  Sorted (fun a b => cmp a b <= 0) l -> sort cmp l = l.
Proof.
  induction 1 as [|x l Hl IH Hhd]; [done|].
  unfold sort in *. simpl. rewrite IH.
  destruct Hhd as [|y l' Hxy]; simpl; [done|].
  destruct (Z.leb_spec (cmp x y) 0); [done|lia].
Qed.

Lemma StronglySorted_sublist {A} (R : relation A) l1 l2 :
  l1 `sublist_of` l2 -> StronglySorted R l2 -> StronglySorted R l1.
Proof.
  induction 1 as [|x l1 l2 Hsub IH|x l1 l2 Hsub IH]; intros Hs.
  - constructor.
  - apply StronglySorted_inv in Hs as [Hs Hall]. constructor; [auto|].
    rewrite Forall_forall in Hall |- *. intros y Hy. apply Hall.
    by eapply elem_of_sublist.
  - apply StronglySorted_inv in Hs as [Hs _]. auto.
Qed.

Section Trace.
Variable RuleLogic_value : RuleLogic -> Z.
Variable random : nat -> QArith_base.Q.


Lemma processRule_keeps_objects context budget turn st l x :
  is_Some (heap (world st) !! x) ->
  is_Some (heap (world (processRule RuleLogic_value random context budget turn st l)) !! x).
Proof.
  intros Hx. destruct (processRule_step_of RuleLogic_value random context budget turn st l);
    simpl; try done.
  destruct (decide (l = x)) as [->|Hne].
  - rewrite lookup_insert_eq. eauto.
  - by rewrite lookup_insert_ne.
Qed.

Lemma pass_trace context budget turn l st :
  (forall x, x ∈ l -> is_Some (heap (world st) !! x)) ->
  let st' := fold_left (processRule RuleLogic_value random context budget turn) l st in
  exists new,
    console (world st') = console (world st) ++ new
    /\ map subject new = l
    /\ map ActivatedRule.rule (activated st')
       = map ActivatedRule.rule (activated st)
         ++ map subject (List.filter isActivatedLine new)
    /\ skipped st' = skipped st ++ map subject (List.filter isSkippedLine new).
Proof.
  revert st. induction l as [|x l IH]; intros st Hvalid; simpl.
  - exists []. by rewrite !app_nil_r.
  - destruct (IH (processRule RuleLogic_value random context budget turn st x))
      as (new & Hc & Hs & Ha & Hk).
    { intros y Hy. apply processRule_keeps_objects. apply Hvalid. by right. }
    destruct (Hvalid x) as [rule Hx]; [left|].
    rewrite Hc, Ha, Hk.
    destruct (processRule_gate_of RuleLogic_value random context budget turn st x)
      as [Hnone| | | | | |]; [congruence|..]; simpl;
      eexists (_ :: new); rewrite <- !app_assoc; simpl;
      (repeat split; [f_equal; exact Hs|try done..]).
    rewrite map_app, <- app_assoc. done.
Qed.

Lemma activeRulesOf_valid h rules x :
  x ∈ activeRulesOf h rules -> is_Some (h !! x).
Proof.
  intros [_ Hon]%elem_of_activeRulesOf. unfold isActiveAt in Hon.
  destruct (h !! x); [eauto|done].
Qed.

End Trace.

Lemma map_filter_sublist {A B} (f : A -> B) (p : A -> bool) l :
  map f (List.filter p l) `sublist_of` map f l.
Proof.
  induction l as [|x l IH]; simpl; [constructor|].
  destruct (p x); simpl; by constructor.
Qed.

Lemma StronglySorted_map_inv {A B} (f : A -> B) (R : relation B) l :
  StronglySorted R (map f l) -> StronglySorted (fun a b => R (f a) (f b)) l.
Proof.
  induction l as [|x l IH]; simpl; intros Hs; [constructor|].
  apply StronglySorted_inv in Hs as [Hs Hall]. constructor; [auto|].
  apply Forall_forall. intros y Hy.
  apply (proj1 (Forall_forall _ _) Hall). apply list_elem_of_fmap. eauto.
Qed.

Lemma StronglySorted_change {A} (R1 R2 : relation A) l :
  (forall a b, a ∈ l -> b ∈ l -> R1 a b -> R2 a b) ->
  StronglySorted R1 l -> StronglySorted R2 l.
Proof.
  induction l as [|x l IH]; intros Himp Hs; [constructor|].
  apply StronglySorted_inv in Hs as [Hs Hall]. constructor.
  - apply IH; [|done]. intros a b Ha Hb. apply Himp; by right.
  - rewrite Forall_forall in Hall |- *. intros y Hy.
    apply Himp; [left|by right|auto].
Qed.

Section Order.
Variable RuleLogic_value : RuleLogic -> Z.
Variable random : nat -> QArith_base.Q.

Lemma runPass_trace context w rules :
  let st := runPass RuleLogic_value random context w (activeRulesOf (heap w) rules) in
  exists new,
    console (world st) = console w ++ new
    /\ map subject new = activeRulesOf (heap w) rules
    /\ map ActivatedRule.rule (activated st) = map subject (List.filter isActivatedLine new)
    /\ skipped st = map subject (List.filter isSkippedLine new).
Proof.
  destruct (pass_trace RuleLogic_value random context (tokenBudgetOf context)
              (currentTurnOf context) (activeRulesOf (heap w) rules) (mkPass w [] [] 0))
    as (new & Hc & Hs & Ha & Hk).
  { intros x Hx. simpl. by eapply activeRulesOf_valid. }
  exists new. done.
Qed.

Lemma runPass_activated_sorted context w rules :
  StronglySorted (fun a b => ActivatedRule.priority b <= ActivatedRule.priority a)
    (activated (runPass RuleLogic_value random context w (activeRulesOf (heap w) rules))).
Proof.
  destruct (runPass_trace context w rules) as (new & _ & Hs & Ha & _).
  pose proof (runPass_justified RuleLogic_value random context w
                (activeRulesOf (heap w) rules)) as Hj.
  rewrite Forall_forall in Hj.
  set (acts := activated _) in *.
  assert (forall a, a ∈ acts ->
            ActivatedRule.priority a = orderAt (heap w) (ActivatedRule.rule a)) as Hprio.
  { intros a Ha'. destruct (Hj a Ha') as (rule & Hl & _ & _ & _ & Heq).
    unfold orderAt. rewrite Hl, Heq. done. }
  apply (StronglySorted_change
           (fun a b => orderAt (heap w) (ActivatedRule.rule b)
                       <= orderAt (heap w) (ActivatedRule.rule a))).
  { intros a b Ha' Hb'. rewrite (Hprio a Ha'), (Hprio b Hb'). done. }
  apply (StronglySorted_map_inv ActivatedRule.rule
           (fun x y => orderAt (heap w) y <= orderAt (heap w) x)).
  apply (StronglySorted_sublist _ _ (activeRulesOf (heap w) rules)).
  - rewrite Ha, <- Hs. apply map_filter_sublist.
  - apply Sorted_StronglySorted; [|apply activeRulesOf_descending].
    intros x y z ??. lia.
Qed.

Lemma processRules_activated context w rules :
  ActivationResult.activatedRules (processRules RuleLogic_value random w rules context).1
  = activated (runPass RuleLogic_value random context w (activeRulesOf (heap w) rules)).
Proof.
  simpl. apply sort_sorted_id.
  apply StronglySorted_Sorted.
  eapply StronglySorted_change; [|apply runPass_activated_sorted].
  simpl. intros. lia.
Qed.

(** X5: the activated rules and the skipped rules come out in the order the
    rules were processed (the active rules by descending order value, ties as
    given), and the activated rules are in descending priority: the final sort
    changes nothing. *)
Theorem activated_rules_keep_processing_order w rules context :
  let result := (processRules RuleLogic_value random w rules context).1 in
  map ActivatedRule.rule (ActivationResult.activatedRules result)
    `sublist_of` activeRulesOf (heap w) rules
  /\ ActivationResult.skippedRules result `sublist_of` activeRulesOf (heap w) rules
  /\ StronglySorted (fun a b => ActivatedRule.priority b <= ActivatedRule.priority a)
       (ActivationResult.activatedRules result).
Proof.
  intros result. subst result. rewrite processRules_activated.
  destruct (runPass_trace context w rules) as (new & _ & Hs & Ha & Hk).
  split; [|split].
  - rewrite Ha, <- Hs. apply map_filter_sublist.
  - simpl. rewrite Hk, <- Hs. apply map_filter_sublist.
  - apply runPass_activated_sorted.
Qed.
(** X6: a call writes exactly one console line per active rule, in processing
    order; the activated rules are the rules of the lines that report an
    activation, the skipped rules those of the lines that report a skip, and a
    rule dropped for want of scan text is in neither list. *)
Theorem every_active_rule_is_accounted_for w rules context :
  let result := (processRules RuleLogic_value random w rules context).1 in
  let w' := (processRules RuleLogic_value random w rules context).2 in
  exists new,
    console w' = console w ++ new
    /\ map subject new = activeRulesOf (heap w) rules
    /\ map ActivatedRule.rule (ActivationResult.activatedRules result)
       = map subject (List.filter isActivatedLine new)
    /\ ActivationResult.skippedRules result = map subject (List.filter isSkippedLine new)
    /\ (length (ActivationResult.activatedRules result)
        + length (ActivationResult.skippedRules result)
        + length (List.filter isDroppedLine new)
        = length (activeRulesOf (heap w) rules))%nat.
Proof.
  intros result w'. subst result w'. rewrite processRules_activated.
  destruct (runPass_trace context w rules) as (new & Hc & Hs & Ha & Hk).
  exists new. split; [done|]. split; [done|]. split; [done|]. split; [done|].
  cbn [fst processRules ActivationResult.skippedRules].
  rewrite <- (length_map ActivatedRule.rule), Ha, Hk, <- Hs, !length_map.
  clear. induction new as [|e new IH]; simpl; [done|].
  unfold isActivatedLine, isSkippedLine, isDroppedLine in *.
  destruct (outcome e); simpl; lia.
Qed.

End Order.

Lemma collectScanText_no_sources rule context :
  ActivationContext.playerInput context = None ->
  ActivationContext.aiResponse context = None ->
  ActivationContext.gameHistory context = None ->
  ActivationContext.memories context = None ->
  collectScanText rule context = EmptyString.
Proof.
  intros H1 H2 H3 H4. unfold collectScanText. rewrite H1, H2, H3, H4. simpl.
  rewrite !andb_false_r. done.
Qed.

Lemma checkProbability_neverDraws random1 random2 rule d :
  neverDraws rule = true ->
  checkProbability random1 rule d = checkProbability random2 rule d
  /\ (checkProbability random1 rule d).2 = d.
Proof.
  unfold neverDraws, checkProbability.
  destruct (CustomRule.probability rule) as [p|]; [|done].
  intros [H|H]%orb_true_iff; destruct (100 <=? p); try done; rewrite H; done.
Qed.

Lemma neverDraws_bump turn n rule : neverDraws (bump turn n rule) = neverDraws rule.
Proof. by destruct n. Qed.

Section Edge.
Variable RuleLogic_value : RuleLogic -> Z.

(** X7: when no rule of the input has text to scan, nothing is activated,
    always-active rules included: the result is empty, the total is 0, rule
    objects and history are untouched and the prompt block is empty. *)
Theorem no_text_no_activation random w rules context :
  (forall l rule, l ∈ rules -> heap w !! l = Some rule ->
                  collectScanText rule context = EmptyString) ->
  let result := (processRules RuleLogic_value random w rules context).1 in
  let w' := (processRules RuleLogic_value random w rules context).2 in
  ActivationResult.activatedRules result = []
  /\ ActivationResult.totalTokens result = 0
  /\ heap w' = heap w
  /\ activationHistory w' = activationHistory w
  /\ formatForPrompt (heap w') result = EmptyString.
Proof.
  intros Hempty result w'. subst result w'.
  assert (let st := runPass RuleLogic_value random context w (activeRulesOf (heap w) rules) in
          activated st = [] /\ totalTokens st = 0 /\ heap (world st) = heap w
          /\ activationHistory (world st) = activationHistory w) as (Ha & Ht & Hh & Hk).
  { apply runPass_gate_invariant; [done|].
    intros st l st' Hl (Ha & Ht & Hh & Hk) Hg.
    destruct Hg as [| | | | | |rule n Hrule _ _ Htext]; try done.
    apply elem_of_activeRulesOf in Hl as [Hl _].
    rewrite Hh in Hrule. rewrite (Hempty l rule Hl Hrule) in Htext. done. }
  cbv zeta in Ha, Ht, Hh, Hk. unfold formatForPrompt, processRules.
  cbv zeta. cbn [fst snd ActivationResult.activatedRules ActivationResult.totalTokens].
  rewrite Ha, Ht, Hh, Hk. done.
Qed.

(** X8: when every rule object has a probability that is undefined, at most 0
    or at least 100, the call does not depend on [Math.random] and makes no
    draw. *)
Theorem random_is_irrelevant_without_probabilities random1 random2 w rules context :
  (forall l rule, heap w !! l = Some rule -> neverDraws rule = true) ->
  processRules RuleLogic_value random1 w rules context
  = processRules RuleLogic_value random2 w rules context
  /\ draws (processRules RuleLogic_value random1 w rules context).2 = draws w.
Proof.
  intros Hnever.
  assert (forall l st,
            (forall x rule, heap (world st) !! x = Some rule -> neverDraws rule = true) ->
            fold_left (processRule RuleLogic_value random1 context (tokenBudgetOf context)
                         (currentTurnOf context)) l st
            = fold_left (processRule RuleLogic_value random2 context (tokenBudgetOf context)
                           (currentTurnOf context)) l st
            /\ draws (world (fold_left
                               (processRule RuleLogic_value random1 context
                                  (tokenBudgetOf context) (currentTurnOf context)) l st))
               = draws (world st)) as Hfold.
  { induction l as [|x l IH]; intros st Hst; simpl; [done|].
    assert (processRule RuleLogic_value random1 context (tokenBudgetOf context)
              (currentTurnOf context) st x
            = processRule RuleLogic_value random2 context (tokenBudgetOf context)
                (currentTurnOf context) st x
            /\ draws (world (processRule RuleLogic_value random1 context
                               (tokenBudgetOf context) (currentTurnOf context) st x))
               = draws (world st)) as [Heq Hd].
    { unfold processRule. destruct (heap (world st) !! x) as [rule|] eqn:Hx; [|done].
      destruct (checkProbability_neverDraws random1 random2 rule (draws (world st))
                  (Hst x rule Hx)) as [Hp Hn].
      rewrite <- Hp.
      destruct (checkProbability random1 rule (draws (world st))) as [passed n].
      simpl in Hn. subst n.
      split; [done|].
      repeat (match goal with |- context [if ?b then _ else _] => destruct b end; simpl);
        done. }
    rewrite <- Heq. destruct (IH (processRule RuleLogic_value random1 context
                                   (tokenBudgetOf context) (currentTurnOf context) st x))
      as [IH1 IH2].
    { intros y rule Hy.
      destruct (processRule_step_of RuleLogic_value random1 context
                  (tokenBudgetOf context) (currentTurnOf context) st x)
        as [?|? ? ? ?|? ? ? ?|rule0 n lr Hx Hb]; simpl in Hy; eauto.
      destruct (decide (x = y)) as [->|Hne].
      - rewrite lookup_insert_eq in Hy. injection Hy as <-.
        change (neverDraws rule0 = true). eauto.
      - rewrite lookup_insert_ne in Hy by done. eauto. }
    split; [done|]. by rewrite IH2. }
  destruct (Hfold (activeRulesOf (heap w) rules) (mkPass w [] [] 0) Hnever) as [H1 H2].
  unfold processRules, runPass. rewrite H1. split; [done|]. simpl.
  rewrite <- H1. exact H2.
Qed.
End Edge.

Lemma checkKeywordMatch_filter text keywords cs ww :
  KeywordMatch.matchedKeywords (checkKeywordMatch text keywords (Some cs) (Some ww))
  = List.filter (keywordFound (if cs then text else JS.toLowerCase text) cs ww) keywords.
Proof. unfold checkKeywordMatch. by destruct keywords. Qed.

Lemma filter_length_all {A} (p : A -> bool) l :
  length (List.filter p l) = length l <-> forall x, x ∈ l -> p x = true.
Proof.
  induction l as [|x l IH]; simpl.
  - split; [intros _ ? []%elem_of_nil|done].
  - pose proof (List.filter_length_le p l) as Hle.
    destruct (p x) eqn:Hx; simpl.
    + rewrite Nat.succ_inj_wd, IH. split.
      * intros H y [->|?]%elem_of_cons; auto.
      * intros H y Hy. apply H. by right.
    + split; [lia|]. intros H. specialize (H x). rewrite Hx in H.
      discriminate H. left.
Qed.

Lemma filter_length_none {A} (p : A -> bool) l :
  length (List.filter p l) = 0%nat <-> forall x, x ∈ l -> p x = false.
Proof.
  induction l as [|x l IH]; simpl.
  - split; [intros _ ? []%elem_of_nil|done].
  - destruct (p x) eqn:Hx; simpl.
    + split; [done|]. intros H. specialize (H x). rewrite Hx in H.
      discriminate H. left.
    + rewrite IH. split.
      * intros H y [->|?]%elem_of_cons; auto.
      * intros H y Hy. apply H. by right.
Qed.

Lemma blank_keyword_not_found text cs ww keyword :
  JS.trim keyword = EmptyString -> keywordFound text cs ww keyword = false.
Proof. intros H. unfold keywordFound. by rewrite H. Qed.

Lemma lengthOr0_default xs : lengthOr0 xs = length (default [] xs).
Proof. by destruct xs. Qed.

Lemma exists_found {A} (p : A -> bool) l :
  (0 < length (List.filter p l))%nat <-> exists x, x ∈ l /\ p x = true.
Proof.
  induction l as [|x l IH]; simpl.
  - split; [lia|]. intros (x & []%elem_of_nil & _).
  - destruct (p x) eqn:Hx; simpl.
    + split; [|lia]. intros _. exists x. split; [left|done].
    + rewrite IH. split.
      * intros (y & Hy & Hp). exists y. split; [by right|done].
      * intros (y & [->|Hy]%elem_of_cons & Hp); [congruence|eauto].
Qed.

Lemma exists_not_found {A} (p : A -> bool) l :
  (length (List.filter p l) < length l)%nat <-> exists x, x ∈ l /\ p x = false.
Proof.
  induction l as [|x l IH]; simpl.
  - split; [lia|]. intros (x & []%elem_of_nil & _).
  - pose proof (List.filter_length_le p l) as Hle.
    destruct (p x) eqn:Hx; simpl.
    + rewrite <- Nat.succ_lt_mono, IH. split.
      * intros (y & Hy & Hp). exists y. split; [by right|done].
      * intros (y & [->|Hy]%elem_of_cons & Hp); [congruence|eauto].
    + split; [|lia]. intros _. exists x. split; [left|done].
Qed.

Section Logic.
Variable RuleLogic_value : RuleLogic -> Z.

Lemma primary_matches rule context scanText :
  KeywordMatch.matchedKeywords (primaryMatchOf rule context scanText)
  = List.filter (keywordFoundFor rule context scanText)
      (default [] (CustomRule.keywords rule)).
Proof.
  unfold primaryMatchOf, keywordFoundFor, checkKeywordMatch, JS.orBool.
  destruct (default [] (CustomRule.keywords rule)); [done|].
  destruct (CustomRule.caseSensitive rule) as [[]|],
           (ActivationContext.caseSensitive context) as [[]|],
           (CustomRule.matchWholeWords rule) as [[]|],
           (ActivationContext.matchWholeWords context) as [[]|]; reflexivity.
Qed.

Lemma secondary_matches rule context scanText :
  KeywordMatch.matchedKeywords (secondaryMatchOf rule context scanText)
  = List.filter (keywordFoundFor rule context scanText)
      (default [] (CustomRule.secondaryKeywords rule)).
Proof.
  unfold secondaryMatchOf, keywordFoundFor, checkKeywordMatch, JS.orBool.
  destruct (default [] (CustomRule.secondaryKeywords rule)); [done|].
  destruct (CustomRule.caseSensitive rule) as [[]|],
           (ActivationContext.caseSensitive context) as [[]|],
           (CustomRule.matchWholeWords rule) as [[]|],
           (ActivationContext.matchWholeWords context) as [[]|]; reflexivity.
Qed.

(** The decision of [evaluateRuleLogic] for a rule that is not always
    active, as one boolean. *)
Lemma evaluateRuleLogic_decision rule pm sm allText :
  JS.truthy (CustomRule.alwaysActive rule) = false ->
  LogicResult.activated (evaluateRuleLogic RuleLogic_value rule pm sm allText)
  = (0 <? length (configuredKeywords rule))%nat
    && match logicOf RuleLogic_value rule with
       | AND_ANY => (0 <? length (pm ++ sm))%nat
       | AND_ALL =>
           (length pm =? length (default [] (CustomRule.keywords rule)))%nat
           && (length sm =? length (default [] (CustomRule.secondaryKeywords rule)))%nat
       | NOT_ALL =>
           (length (pm ++ sm) <? length (configuredKeywords rule))%nat
           && (0 <? length (pm ++ sm))%nat
       | NOT_ANY => (length (pm ++ sm) =? 0)%nat
       end.
Proof.
  intros Hconst. unfold evaluateRuleLogic, configuredKeywords.
  rewrite Hconst, !length_app, !lengthOr0_default.
  generalize (length (default [] (CustomRule.keywords rule)))
             (length (default [] (CustomRule.secondaryKeywords rule)))
             (length pm) (length sm).
  intros P S p s.
  destruct (Nat.ltb_spec 0 P), (Nat.ltb_spec 0 S), (Nat.ltb_spec 0 (P + S));
    try lia; cbn [negb andb]; try reflexivity;
    destruct (logicOf RuleLogic_value rule);
    repeat match goal with
           | |- context [(?a <? ?b)%nat] => destruct (Nat.ltb_spec a b)
           | |- context [(?a =? ?b)%nat] => destruct (Nat.eqb_spec a b)
           end; cbn [negb andb orb LogicResult.activated]; try reflexivity; lia.
Qed.
End Logic.

Section Modes.
Variable RuleLogic_value : RuleLogic -> Z.

Lemma logicResultOf_decision rule context :
  JS.truthy (CustomRule.alwaysActive rule) = false ->
  let found := keywordFoundFor rule context (collectScanText rule context) in
  let matched := List.filter found (configuredKeywords rule) in
  LogicResult.activated (logicResultOf RuleLogic_value rule context)
  = (0 <? length (configuredKeywords rule))%nat
    && match logicOf RuleLogic_value rule with
       | AND_ANY => (0 <? length matched)%nat
       | AND_ALL =>
           (length (List.filter found (default [] (CustomRule.keywords rule)))
            =? length (default [] (CustomRule.keywords rule)))%nat
           && (length (List.filter found (default [] (CustomRule.secondaryKeywords rule)))
               =? length (default [] (CustomRule.secondaryKeywords rule)))%nat
       | NOT_ALL =>
           (length matched <? length (configuredKeywords rule))%nat
           && (0 <? length matched)%nat
       | NOT_ANY => (length matched =? 0)%nat
       end.
Proof.
  intros Hconst found matched. unfold logicResultOf.
  rewrite (evaluateRuleLogic_decision RuleLogic_value) by done.
  rewrite primary_matches, secondary_matches.
  subst matched. rewrite <- List.filter_app. reflexivity.
Qed.

Lemma configured_nonempty rule :
  (0 < length (configuredKeywords rule))%nat <-> configuredKeywords rule <> [].
Proof. destruct (configuredKeywords rule); simpl; split; (done || lia). Qed.

(** X9: under [AND_ALL] a rule that is not always active activates exactly
    when it has a keyword and every primary and secondary keyword is found; a
    rule with a blank keyword therefore never activates. *)
Theorem AND_ALL_needs_every_keyword rule context :
  logicOf RuleLogic_value rule = AND_ALL ->
  JS.truthy (CustomRule.alwaysActive rule) = false ->
  let found := keywordFoundFor rule context (collectScanText rule context) in
  (LogicResult.activated (logicResultOf RuleLogic_value rule context) = true
   <-> configuredKeywords rule <> []
       /\ forall keyword, keyword ∈ configuredKeywords rule -> found keyword = true)
  /\ ((exists keyword, keyword ∈ configuredKeywords rule /\ JS.trim keyword = EmptyString) ->
      LogicResult.activated (logicResultOf RuleLogic_value rule context) = false).
Proof.
  intros Hlogic Hconst found.
  assert (LogicResult.activated (logicResultOf RuleLogic_value rule context) = true
          <-> configuredKeywords rule <> []
              /\ forall keyword, keyword ∈ configuredKeywords rule -> found keyword = true)
    as Hiff.
  { rewrite logicResultOf_decision by done. rewrite Hlogic. fold found.
    rewrite !andb_true_iff, Nat.ltb_lt, !Nat.eqb_eq, !filter_length_all,
      configured_nonempty.
    unfold configuredKeywords. setoid_rewrite elem_of_app.
    split.
    - intros (Hne & Hp & Hs). split; [done|]. intros keyword [?|?]; auto.
    - intros (Hne & Hall). repeat split; auto. }
  split; [exact Hiff|].
  intros (keyword & Hin & Hblank).
  apply not_true_is_false. intros Hact.
  apply Hiff in Hact as [_ Hall]. specialize (Hall keyword Hin).
  subst found. unfold keywordFoundFor in Hall.
  by rewrite blank_keyword_not_found in Hall.
Qed.

(** X10: under [NOT_ANY] a rule that is not always active activates exactly
    when it has a keyword and none of its keywords is found. *)
Theorem NOT_ANY_needs_no_keyword rule context :
  logicOf RuleLogic_value rule = NOT_ANY ->
  JS.truthy (CustomRule.alwaysActive rule) = false ->
  let found := keywordFoundFor rule context (collectScanText rule context) in
  LogicResult.activated (logicResultOf RuleLogic_value rule context) = true
  <-> configuredKeywords rule <> []
      /\ forall keyword, keyword ∈ configuredKeywords rule -> found keyword = false.
Proof.
  intros Hlogic Hconst found.
  rewrite logicResultOf_decision by done. rewrite Hlogic. fold found.
  by rewrite !andb_true_iff, Nat.ltb_lt, !Nat.eqb_eq, !filter_length_none,
    configured_nonempty.
Qed.

(** X11: under [AND_ANY] a rule that is not always active activates exactly
    when one of its keywords is found. *)
Theorem AND_ANY_needs_one_keyword rule context :
  logicOf RuleLogic_value rule = AND_ANY ->
  JS.truthy (CustomRule.alwaysActive rule) = false ->
  let found := keywordFoundFor rule context (collectScanText rule context) in
  LogicResult.activated (logicResultOf RuleLogic_value rule context) = true
  <-> exists keyword, keyword ∈ configuredKeywords rule /\ found keyword = true.
Proof.
  intros Hlogic Hconst found.
  rewrite logicResultOf_decision by done. rewrite Hlogic. fold found.
  rewrite !andb_true_iff, !Nat.ltb_lt, exists_found.
  split; [by intros [_ ?]|]. intros (keyword & Hin & Hf). split; [|eauto].
  destruct (configuredKeywords rule); [by apply elem_of_nil in Hin|simpl; lia].
Qed.

(** X12: under [NOT_ALL] a rule that is not always active activates exactly
    when one of its keywords is found and one is not (a blank keyword is never
    found). *)
Theorem NOT_ALL_needs_found_and_missing rule context :
  logicOf RuleLogic_value rule = NOT_ALL ->
  JS.truthy (CustomRule.alwaysActive rule) = false ->
  let found := keywordFoundFor rule context (collectScanText rule context) in
  LogicResult.activated (logicResultOf RuleLogic_value rule context) = true
  <-> (exists keyword, keyword ∈ configuredKeywords rule /\ found keyword = true)
      /\ (exists keyword, keyword ∈ configuredKeywords rule /\ found keyword = false).
Proof.
  intros Hlogic Hconst found.
  rewrite logicResultOf_decision by done. rewrite Hlogic. fold found.
  rewrite !andb_true_iff, !Nat.ltb_lt, exists_found, exists_not_found.
  split; [intros (_ & ? & ?); by split|].
  intros [(keyword & Hin & Hf) Hmiss]. repeat split; eauto.
  destruct (configuredKeywords rule); [by apply elem_of_nil in Hin|simpl; lia].
Qed.
End Modes.

Lemma includes_unfold s k :
  JS.includes s k
  = String.prefix k s
    || match s with EmptyString => false | String _ s' => JS.includes s' k end.
Proof. by destruct s. Qed.















(** X15: [estimateTokens] is the length over 4 rounded up: four times the
    estimate covers the text with less than 4 characters to spare, and the
    estimate is 0 for the empty text only. *)
Theorem estimateTokens_is_a_ceiling text :
  Z.of_nat (String.length text) <= 4 * estimateTokens text
  /\ 4 * estimateTokens text < Z.of_nat (String.length text) + 4
  /\ (estimateTokens text = 0 <-> text = EmptyString).
Proof.
  unfold estimateTokens, JS.ceilDiv4. destruct text as [|c text]; simpl negb; cbv iota.
  - simpl. repeat split; lia.
  - set (n := String.length (String c text)).
    assert (0 < Z.of_nat n) by (subst n; simpl; lia).
    pose proof (Z.div_mod (Z.of_nat n + 3) 4 ltac:(lia)).
    pose proof (Z.mod_pos_bound (Z.of_nat n + 3) 4 ltac:(lia)).
    repeat split; try lia; discriminate.
Qed.

Lemma countTurn_appendTurns turn n entry :
  countTurn turn (appendTurns turn n entry) = (countTurn turn entry + n)%nat.
Proof.
  destruct n as [|n]; simpl; [lia|]. unfold countTurn. simpl.
  rewrite List.filter_app, length_app. f_equal.
  change (turn :: replicate n turn) with (replicate (S n) turn).
  generalize (S n). intros m. induction m as [|m IH]; simpl; [done|].
  rewrite Z.eqb_refl. simpl. by rewrite IH.
Qed.

Lemma foldl_sum_lengths (hs : list (list Z)) (acc : nat) :
  Forall (fun history => history <> []) hs ->
  (acc + length hs <= foldl (fun sum history => (sum + length history)%nat) acc hs)%nat.
Proof.
  revert acc. induction hs as [|history hs IH]; intros acc Hall; simpl; [lia|].
  apply Forall_cons in Hall as [Hne Hall].
  specialize (IH (acc + length history)%nat Hall).
  destruct history; [done|]. simpl in *. lia.
Qed.

Section StatsTheorems.
Variable RuleLogic_value : RuleLogic -> Z.
Variable random : nat -> QArith_base.Q.

(** X16: a call keeps the history map free of empty entries; [getStats] then
    reports as many active rules as total rules, no fewer rules than before
    the call, and an average of at least 1 activation per rule. *)
Theorem history_entries_are_never_empty w rules context :
  entriesNonEmpty (activationHistory w) ->
  let w' := (processRules RuleLogic_value random w rules context).2 in
  entriesNonEmpty (activationHistory w')
  /\ Stats.totalRules (getStats w') = Stats.activeRules (getStats w')
  /\ (Stats.totalRules (getStats w) <= Stats.totalRules (getStats w'))%nat
  /\ ((0 < Stats.activeRules (getStats w'))%nat ->
      QArith_base.Qle (QArith_base.Qmake 1 1) (Stats.averageActivations (getStats w'))).
Proof.
  intros Hne w'.
  destruct (processRules_effect RuleLogic_value random w rules context) as [_ Hk].
  fold w' in Hk. cbv zeta in Hk.
  assert (entriesNonEmpty (activationHistory w')) as Hne'.
  { intros k history. rewrite Hk. unfold appendTurns.
    destruct (timesFired _ _ _) as [|n]; [apply Hne|].
    intros [= <-]. simpl. intros Habs.
    apply (f_equal length) in Habs. rewrite length_app in Habs. simpl in Habs. lia. }
  split; [done|].
  assert (Stats.totalRules (getStats w') = Stats.activeRules (getStats w')) as Hsame.
  { unfold getStats. simpl. by rewrite length_fmap, length_map_to_list. }
  split; [done|]. split.
  - unfold getStats. simpl. rewrite <- !size_dom. apply subseteq_size.
    intros k. rewrite !elem_of_dom, Hk. unfold appendTurns.
    destruct (timesFired _ _ _); [done|]. eauto.
  - unfold getStats. cbn [Stats.activeRules Stats.averageActivations].
    set (n := length (map_to_list (activationHistory w')).*1).
    intros Hpos. destruct (Nat.ltb_spec 0 n); [|lia].
    unfold QArith_base.Qle. simpl.
    assert (Forall (fun history : list Z => history <> [])
              (map_to_list (activationHistory w')).*2) as Hall.
    { apply Forall_forall. intros history ((k & h') & -> & Hin)%list_elem_of_fmap.
      apply elem_of_map_to_list in Hin. by eapply Hne'. }
    pose proof (foldl_sum_lengths _ 0%nat Hall) as Hsum.
    rewrite !length_fmap in Hsum. subst n. rewrite length_fmap in *.
    rewrite Z.mul_1_r. rewrite <- (positive_nat_Z (Pos.of_nat _)).
    rewrite Nat2Pos.id by lia. lia.
Qed.

(** X17: after a call the history map has an entry for an id exactly when it
    had one before or a rule with that id was activated in the call. *)
Theorem history_keys_are_the_activated_ids w rules context k :
  let result := (processRules RuleLogic_value random w rules context).1 in
  let w' := (processRules RuleLogic_value random w rules context).2 in
  is_Some (activationHistory w' !! k)
  <-> is_Some (activationHistory w !! k)
      \/ exists a, a ∈ ActivationResult.activatedRules result
                  /\ idAt (heap w) (ActivatedRule.rule a) = Some k.
Proof.
  intros result w'.
  destruct (processRules_effect RuleLogic_value random w rules context) as [_ Hk].
  fold result w' in Hk. cbv zeta in Hk. rewrite Hk.
  unfold appendTurns, timesFired.
  destruct (filter _ _) as [|a rest] eqn:Hf; simpl.
  - split; [auto|]. intros [?|(a & Ha & Hid)]; [done|].
    assert (a ∈ filter (fun a => idAt (heap w) (ActivatedRule.rule a) = Some k)
                  (ActivationResult.activatedRules result)) as Hin
      by (by apply list_elem_of_filter).
    rewrite Hf in Hin. by apply elem_of_nil in Hin.
  - split; [|eauto]. intros _. right. exists a.
    assert (a ∈ filter (fun a => idAt (heap w) (ActivatedRule.rule a) = Some k)
                  (ActivationResult.activatedRules result)) as Hin
      by (rewrite Hf; left).
    apply list_elem_of_filter in Hin as [? ?]. done.
Qed.

End StatsTheorems.

Section Fresh.
Variable RuleLogic_value : RuleLogic -> Z.
Variable random : nat -> QArith_base.Q.

Lemma fresh_pass context w l :
  uniqueIds (heap w) ->
  (forall k, countTurn (currentTurnOf context) (activationHistory w !! k) = 0%nat) ->
  forall st,
    effect_of (currentTurnOf context) w st ->
    NoDup l ->
    (forall x, x ∈ l -> x ∉ map ActivatedRule.rule (activated st)) ->
    exists new,
      console (world (fold_left
                        (processRule RuleLogic_value random context (tokenBudgetOf context)
                           (currentTurnOf context)) l st))
      = console (world st) ++ new
      /\ Forall (fun e => outcome e <> SkippedLimit) new.
Proof.
  intros Huniq Hfresh. induction l as [|x l IH]; intros st He Hnd Hnew; simpl.
  - exists []. by rewrite app_nil_r.
  - apply NoDup_cons in Hnd as [Hx Hnd].
    pose proof (processRule_gate_of RuleLogic_value random context (tokenBudgetOf context)
                  (currentTurnOf context) st x) as Hg.
    set (st1 := processRule _ _ _ _ _ st x) in *.
    assert (effect_of (currentTurnOf context) w st1) as He1.
    { eapply effect_of_step; [done|]. eapply gate_of_step_of. done. }
    assert (exists line,
               console (world st1) = console (world st) ++ line
               /\ Forall (fun e => outcome e <> SkippedLimit) line
               /\ forall y, y ∈ map ActivatedRule.rule (activated st1) ->
                            y ∈ map ActivatedRule.rule (activated st) \/ y = x)
      as (line & Hc & Hline & Hrefs).
    { destruct Hg as [Hnone|rule Hrule Hcap| | | | |].
      - exists []. rewrite app_nil_r. auto.
      - exfalso.
        destruct (effect_of_lookup _ _ _ _ _ He Hrule) as (rule0 & n & Hw & ->).
        rewrite bump_limits in Hcap. unfold checkActivationLimits in Hcap.
        destruct (CustomRule.maxActivationsPerTurn rule0) as [c|]; simpl in Hcap; [|done].
        destruct (Z.eqb_spec c 0); simpl in Hcap; [done|].
        destruct (Z.leb_spec c 0); simpl in Hcap; [done|].
        apply Z.ltb_ge in Hcap.
        destruct He as [_ Hhist].
        pose proof (countTurn_appendTurns (currentTurnOf context)
                      (timesFired (heap w) (CustomRule.id rule0) (activated st))
                      (activationHistory w !! CustomRule.id rule0)) as Hcount.
        rewrite <- Hhist, Hfresh in Hcount.
        rewrite timesFired_0 in Hcount.
        { unfold countTurn in Hcount. lia. }
        intros a Ha Hid. apply (Hnew x); [left|].
        unfold idAt in Hid.
        destruct (heap w !! ActivatedRule.rule a) as [r|] eqn:Hr; [|done].
        injection Hid as Hid. rewrite <- (Huniq _ _ _ _ Hr Hw Hid).
        apply list_elem_of_fmap. eauto.
      - eexists [_]. simpl. repeat split; [|auto].
        constructor; [done|constructor].
      - eexists [_]. simpl. repeat split; [|auto].
        constructor; [done|constructor].
      - eexists [_]. simpl. repeat split; [|auto].
        constructor; [done|constructor].
      - eexists [_]. simpl. repeat split; [|auto].
        constructor; [done|constructor].
      - eexists [_]. simpl. repeat split.
        + constructor; [done|constructor].
        + intros y. rewrite fmap_app, elem_of_app. simpl.
          intros [?|?%list_elem_of_singleton]; auto. }
    destruct (IH st1 He1 Hnd) as (new & Hc' & Hall).
    { intros y Hy Hin. destruct (Hrefs y Hin) as [?| ->]; [|done].
      apply (Hnew y); [by right|done]. }
    exists (line ++ new). rewrite Hc', Hc, <- app_assoc. split; [done|].
    apply Forall_app. done.
Qed.

(** X19: in a call at a turn for which the history holds no activation, on
    rules with unique ids each listed once, no rule is skipped for its
    activation limit. *)
Theorem fresh_turn_never_hits_a_cap w rules context :
  uniqueIds (heap w) ->
  NoDup rules ->
  (forall k, countTurn (currentTurnOf context) (activationHistory w !! k) = 0%nat) ->
  exists new,
    console (processRules RuleLogic_value random w rules context).2 = console w ++ new
    /\ Forall (fun e => outcome e <> SkippedLimit) new.
Proof.
  intros Huniq Hnd Hfresh.
  apply (fresh_pass context w (activeRulesOf (heap w) rules) Huniq Hfresh
           (mkPass w [] [] 0)).
  - split; simpl; intros; [by destruct (heap w !! l)|done].
  - unfold activeRulesOf. rewrite sort_perm.
    apply NoDup_ListNoDup, List.NoDup_filter, NoDup_ListNoDup, Hnd.
  - intros x _ []%elem_of_nil.
Qed.
(** X18: after [clearHistory], [getStats] reports no rule, the rule objects
    are as they were, no cap blocks a rule, and a call on rules with unique
    ids, each listed once, skips none of them for its activation limit. *)
Theorem clearHistory_resets w rules context :
  getStats (clearHistory w) = Stats.mk 0 0 (QArith_base.Qmake 0 1)
  /\ heap (clearHistory w) = heap w
  /\ (forall rule turn,
        checkActivationLimits (activationHistory (clearHistory w)) rule turn = true)
  /\ (uniqueIds (heap w) -> NoDup rules ->
      exists new,
        console (processRules RuleLogic_value random (clearHistory w) rules context).2
        = console w ++ new
        /\ Forall (fun e => outcome e <> SkippedLimit) new).
Proof.
  split; [|split; [done|split]].
  - unfold getStats, clearHistory. simpl. rewrite map_to_list_empty. done.
  - intros rule turn. unfold checkActivationLimits, clearHistory. simpl.
    rewrite lookup_empty. simpl.
    destruct (CustomRule.maxActivationsPerTurn rule) as [c|]; simpl; [|done].
    destruct (Z.eqb_spec c 0); simpl; [done|].
    destruct (Z.leb_spec c 0); simpl; [done|]. apply Z.ltb_lt. lia.
  - intros Huniq Hnd.
    apply (fresh_pass context (clearHistory w) (activeRulesOf (heap w) rules) Huniq
             (fun k => eq_refl) (mkPass (clearHistory w) [] [] 0)).
    + split; simpl; intros; [by destruct (heap w !! l)|done].
    + unfold activeRulesOf. rewrite sort_perm.
      apply NoDup_ListNoDup, List.NoDup_filter, NoDup_ListNoDup, Hnd.
    + intros x _ []%elem_of_nil.
Qed.

End Fresh.

Lemma unescape_plain fuel c rest :
  c <> "\"%char -> unescape (S fuel) (String c rest) = String c (unescape fuel rest).
Proof.
  intros Hne.
  destruct c as [[] [] [] [] [] [] [] []];
    try reflexivity; try (destruct rest; reflexivity); congruence.
Qed.

Lemma unescape_escapeRegex text fuel :
  (String.length text <= fuel)%nat -> unescape fuel (escapeRegex text) = text.
Proof.
  revert fuel. induction text as [|c text IH]; intros fuel Hf.
  - destruct fuel; reflexivity.
  - destruct fuel as [|fuel]; simpl in Hf; [lia|].
    specialize (IH fuel ltac:(lia)).
    cbn [escapeRegex]. destruct (isRegexSpecial c) eqn:Hc.
    + cbn [unescape]. by rewrite IH.
    + rewrite unescape_plain, IH; [done|]. intros ->. discriminate Hc.
Qed.

Lemma escapeRegex_is_injective text1 text2 :
  escapeRegex text1 = escapeRegex text2 -> text1 = text2.
Proof.
  intros Heq.
  pose proof (unescape_escapeRegex text1 (String.length text1 + String.length text2)
                ltac:(lia)) as H1.
  pose proof (unescape_escapeRegex text2 (String.length text1 + String.length text2)
                ltac:(lia)) as H2.
  rewrite Heq in H1. congruence.
Qed.

Lemma escapeRegex_length text :
  (String.length text <= String.length (escapeRegex text))%nat.
Proof.
  induction text as [|c text IH]; simpl; [done|].
  destruct (isRegexSpecial c); simpl; lia.
Qed.

(** X20: [escapeRegex] loses nothing: reading the escaped text with each
    backslash standing for the character after it gives the text back, so two
    texts with the same escaped form are equal. *)
Theorem escapeRegex_reads_back text :
  unescape (String.length (escapeRegex text)) (escapeRegex text) = text
  /\ forall text', escapeRegex text = escapeRegex text' -> text = text'.
Proof.
  split.
  - apply unescape_escapeRegex, escapeRegex_length.
  - apply escapeRegex_is_injective.
Qed.

Lemma prefix_nil s : String.prefix EmptyString s = true.
Proof. by destruct s. Qed.

Lemma prefix_app x s t : String.prefix x s = true -> String.prefix x (s +:+ t) = true.
Proof.
  revert s. induction x as [|a x IH]; intros s; [intros _; apply prefix_nil|].
  destruct s as [|b s]; [done|]. rewrite string_app_cons. simpl.
  destruct (ascii_dec a b); [apply IH|done].
Qed.

Lemma prefix_refl x : String.prefix x x = true.
Proof. induction x as [|a x IH]; simpl; [done|]. by destruct (ascii_dec a a). Qed.

Lemma includes_app_l s t x : JS.includes s x = true -> JS.includes (s +:+ t) x = true.
Proof.
  induction s as [|c s IH]; rewrite (includes_unfold _ x), (includes_unfold (_ +:+ t) x),
    !orb_true_iff.
  - intros [H|?]; [|done]. left. by apply (prefix_app x EmptyString).
  - intros [H|H]; [left; by apply (prefix_app x (String c s))|right].
    rewrite string_app_cons. auto.
Qed.

Lemma includes_app_r s t x : JS.includes t x = true -> JS.includes (s +:+ t) x = true.
Proof.
  intros H. induction s as [|c s IH]; [done|].
  rewrite string_app_cons, includes_unfold. apply orb_true_iff. by right.
Qed.

Lemma includes_refl x : JS.includes x x = true.
Proof. rewrite includes_unfold. by rewrite prefix_refl. Qed.

Lemma formatRule_appends h prompt a :
  exists block, formatRule h prompt a = prompt +:+ block.
Proof.
  unfold formatRule. destruct (h !! ActivatedRule.rule a) as [rule|].
  - destruct (0 <? length (ActivatedRule.matchedKeywords a))%nat;
      rewrite ?string_app_assoc; eauto.
  - exists EmptyString. by rewrite string_app_nil_r.
Qed.

Lemma fold_formatRule_appends h acts prompt :
  exists blocks, fold_left (formatRule h) acts prompt = prompt +:+ blocks.
Proof.
  revert prompt. induction acts as [|a acts IH]; intros prompt; simpl.
  - exists EmptyString. by rewrite string_app_nil_r.
  - destruct (formatRule_appends h prompt a) as [block ->].
    destruct (IH (prompt +:+ block)) as [blocks ->].
    rewrite string_app_assoc. eauto.
Qed.

Lemma fold_formatRule_includes h acts prompt a rule x :
  a ∈ acts -> h !! ActivatedRule.rule a = Some rule ->
  (forall p, JS.includes (formatRule h p a) x = true) ->
  JS.includes (fold_left (formatRule h) acts prompt) x = true.
Proof.
  intros Ha Hrule Hx. revert prompt.
  induction acts as [|b acts IH]; intros prompt; [by apply elem_of_nil in Ha|].
  simpl. apply elem_of_cons in Ha as [<-|Ha]; [|by apply IH].
  destruct (fold_formatRule_appends h acts (formatRule h prompt a)) as [blocks ->].
  by apply includes_app_l.
Qed.

(** X21: the prompt block starts with the header and holds, for every
    activated rule, its title line (the title, or the fallback made from its
    id, with the priority) and its content on a line of its own. *)
Theorem prompt_holds_every_activated_rule h result a rule :
  a ∈ ActivationResult.activatedRules result ->
  h !! ActivatedRule.rule a = Some rule ->
  String.prefix (LF +:+ "=== " +:+ HEADER_WORDS +:+ " ===" +:+ LF)
    (formatForPrompt h result) = true
  /\ JS.includes (formatForPrompt h result) (LF +:+ CustomRule.content rule +:+ LF) = true
  /\ JS.includes (formatForPrompt h result)
       ("[" +:+ JS.orStr (CustomRule.title rule)
                  (RULE_WORD +:+ " " +:+ CustomRule.id rule)
        +:+ "] (" +:+ PRIORITY_WORDS +:+ ": "
        +:+ pretty (JS.orNum (CustomRule.order rule) 0) +:+ ")") = true.
Proof.
  intros Ha Hrule. unfold formatForPrompt.
  destruct (ActivationResult.activatedRules result) as [|b acts] eqn:Hacts;
    [by apply elem_of_nil in Ha|].
  rewrite <- Hacts in *. clear Hacts b acts.
  split; [|split].
  - destruct (fold_formatRule_appends h (ActivationResult.activatedRules result)
                (LF +:+ "=== " +:+ HEADER_WORDS +:+ " ===" +:+ LF)) as [blocks ->].
    rewrite string_app_assoc. apply prefix_app, prefix_refl.
  - apply includes_app_l. eapply fold_formatRule_includes; [done..|].
    intros p. unfold formatRule. rewrite Hrule.
    apply includes_app_r, includes_refl.
  - apply includes_app_l. eapply fold_formatRule_includes; [done..|].
    intros p. unfold formatRule. rewrite Hrule.
    destruct (0 <? length (ActivatedRule.matchedKeywords a))%nat.
    + apply includes_app_l, includes_app_l, includes_app_r, includes_app_r, includes_refl.
    + apply includes_app_l, includes_app_r, includes_app_r, includes_refl.
Qed.

Lemma trimEnd_idempotent s : JS.trimEnd (JS.trimEnd s) = JS.trimEnd s.
Proof.
  induction s as [|c s IH]; [done|]. cbn [JS.trimEnd].
  destruct (JS.isWhiteSpace c && negb (JS.nonEmpty (JS.trimEnd s))) eqn:Hc; [done|].
  cbn [JS.trimEnd]. rewrite IH, Hc. done.
Qed.

Lemma trimStart_trimEnd_head c s :
  JS.isWhiteSpace c = false ->
  JS.trimStart (JS.trimEnd (String c s)) = JS.trimEnd (String c s).
Proof. intros Hc. cbn [JS.trimEnd]. rewrite Hc. simpl. by rewrite Hc. Qed.

Lemma trimStart_head s :
  JS.trimStart s = EmptyString
  \/ exists c rest, JS.trimStart s = String c rest /\ JS.isWhiteSpace c = false.
Proof.
  induction s as [|c s IH]; simpl; [by left|].
  destruct (JS.isWhiteSpace c) eqn:Hc; [done|]. right. eauto.
Qed.

Lemma trim_idempotent s : JS.trim (JS.trim s) = JS.trim s.
Proof.
  unfold JS.trim. destruct (trimStart_head s) as [->|(c & rest & -> & Hc)]; [done|].
  by rewrite trimStart_trimEnd_head, trimEnd_idempotent.
Qed.

Lemma fold_left_visits {A B} (f : B -> A -> B) (P Q : B -> Prop) (l : list A) (b : B) x :
  x ∈ l -> P b ->
  (forall b a, P b -> P (f b a)) ->
  (forall b, P b -> Q (f b x)) ->
  (forall b a, Q b -> Q (f b a)) ->
  Q (fold_left f l b).
Proof.
  intros Hx Hb HP HQ Hkeep. revert b Hb.
  induction l as [|y l IH]; intros b Hb; [by apply elem_of_nil in Hx|].
  simpl. apply elem_of_cons in Hx as [<-|Hx].
  - clear IH. assert (Q (f b x)) as Hq by auto. revert Hq. generalize (f b x).
    induction l as [|z l IH]; intros b' Hq; simpl; auto.
  - apply IH; auto.
Qed.

Lemma bump_logicActivates V turn n rule context :
  logicActivates V (bump turn n rule) context = logicActivates V rule context.
Proof. by destruct n. Qed.

Section Open.
Variable RuleLogic_value : RuleLogic -> Z.
Variable random : nat -> QArith_base.Q.

Lemma runPass_open_rule context w refs l rule :
  l ∈ refs -> heap w !! l = Some rule ->
  CustomRule.maxActivationsPerTurn rule = None ->
  CustomRule.probability rule = None ->
  logicActivates RuleLogic_value rule context = true ->
  let st := runPass RuleLogic_value random context w refs in
  l ∈ map ActivatedRule.rule (activated st)
  \/ (l ∈ skipped st
      /\ exists new, console (world st) = console w ++ new
                     /\ Logged l SkippedBudget ∈ new).
Proof.
  intros Hin Hl Hcap Hprob Hact st. subst st. unfold runPass.
  apply (fold_left_visits _
           (fun st => effect_of (currentTurnOf context) w st
                      /\ exists old, console (world st) = console w ++ old)
           (fun st =>
              l ∈ map ActivatedRule.rule (activated st)
              \/ (l ∈ skipped st
                  /\ exists new, console (world st) = console w ++ new
                                 /\ Logged l SkippedBudget ∈ new))
           _ _ l).
  - done.
  - split; [split; simpl; intros; [by destruct (heap w !! l0)|done]|].
    exists []. simpl. by rewrite app_nil_r.
  - intros st x [He [old Hold]].
    pose proof (processRule_step_of RuleLogic_value random context
                  (tokenBudgetOf context) (currentTurnOf context) st x) as Hs.
    split; [by eapply effect_of_step|].
    destruct Hs; simpl; rewrite ?Hold, <- ?app_assoc; eauto.
  - intros st [[Hh _] [old Hold]].
    pose proof (Hh l) as Hl'. rewrite Hl in Hl'. simpl in Hl'.
    destruct (processRule_gates_open RuleLogic_value random context
                (tokenBudgetOf context) (currentTurnOf context) st l _ Hl')
      as [lr ->].
    + by rewrite bump_cap.
    + by rewrite bump_probability.
    + by rewrite bump_logicActivates.
    + destruct (_ <? _); simpl.
      * right. split; [apply elem_of_app; right; left|].
        exists (old ++ [Logged l SkippedBudget]). rewrite Hold, <- app_assoc.
        split; [done|]. apply elem_of_app. right. left.
      * left. rewrite fmap_app. apply elem_of_app. right. left.
  - intros st x [H|(H & new & Hnew & Hline)];
      destruct (processRule_step_of RuleLogic_value random context
                  (tokenBudgetOf context) (currentTurnOf context) st x); simpl; auto.
    + left. rewrite fmap_app. apply elem_of_app. by left.
    + right. eauto.
    + right. split; [apply elem_of_app; by left|].
      eexists. rewrite Hnew, <- app_assoc. split; [done|]. apply elem_of_app. by left.
    + right. split; [done|].
      eexists. rewrite Hnew, <- app_assoc. split; [done|]. apply elem_of_app. by left.
    + right. split; [done|].
      eexists. rewrite Hnew, <- app_assoc. split; [done|]. apply elem_of_app. by left.
Qed.

(** X22: an active rule of the input with no cap and no probability whose
    logic activates is either activated or skipped with the report that it
    would exceed the token budget. *)
Theorem only_the_budget_stops_an_open_rule w rules context l rule :
  l ∈ rules -> heap w !! l = Some rule ->
  CustomRule.isActive rule = true ->
  CustomRule.maxActivationsPerTurn rule = None ->
  CustomRule.probability rule = None ->
  logicActivates RuleLogic_value rule context = true ->
  let result := (processRules RuleLogic_value random w rules context).1 in
  let w' := (processRules RuleLogic_value random w rules context).2 in
  l ∈ map ActivatedRule.rule (ActivationResult.activatedRules result)
  \/ (l ∈ ActivationResult.skippedRules result
      /\ exists new, console w' = console w ++ new /\ Logged l SkippedBudget ∈ new).
Proof.
  intros Hin Hl Hon Hcap Hprob Hact result w'. subst result w'.
  unfold processRules. cbv zeta. cbn [fst snd ActivationResult.activatedRules
                                       ActivationResult.skippedRules].
  rewrite sort_perm.
  apply (runPass_open_rule context w _ l rule); try done.
  apply elem_of_activeRulesOf. split; [done|]. unfold isActiveAt. by rewrite Hl.
Qed.

End Open.

Lemma trimEnd_keeps_head c s :
  JS.isWhiteSpace c = false -> exists rest, JS.trimEnd (String c s) = String c rest.
Proof. intros Hc. cbn [JS.trimEnd]. rewrite Hc. simpl. eauto. Qed.

Lemma trimEnd_last s c :
  String.get (String.length (JS.trimEnd s) - 1) (JS.trimEnd s) = Some c ->
  JS.isWhiteSpace c = false.
Proof.
  revert c. induction s as [|a s IH]; intros c; [done|]. cbn [JS.trimEnd].
  destruct (JS.isWhiteSpace a && negb (JS.nonEmpty (JS.trimEnd s))) eqn:Ha; [done|].
  destruct (JS.trimEnd s) as [|b t] eqn:Ht.
  - simpl. intros [= <-]. simpl in Ha. by rewrite andb_true_r in Ha.
  - intros H. apply IH. simpl in H |- *. by rewrite Nat.sub_0_r in *.
Qed.

(** X24: the scan text is trimmed: trimming it again changes nothing, and
    neither its first nor its last character is white space. *)
Theorem scan_text_is_trimmed rule context :
  JS.trim (collectScanText rule context) = collectScanText rule context
  /\ (forall c, String.get 0 (collectScanText rule context) = Some c ->
                JS.isWhiteSpace c = false)
  /\ (forall c, String.get (String.length (collectScanText rule context) - 1)
                  (collectScanText rule context) = Some c ->
                JS.isWhiteSpace c = false).
Proof.
  assert (exists s, collectScanText rule context = JS.trim s) as [s ->]
    by (unfold collectScanText; eauto).
  split; [apply trim_idempotent|]. split.
  - intros c. unfold JS.trim.
    destruct (trimStart_head s) as [->|(a & rest & -> & Ha)]; [done|].
    destruct (trimEnd_keeps_head a rest Ha) as [rest' ->]. simpl. by intros [= <-].
  - intros c. unfold JS.trim. apply trimEnd_last.
Qed.

(** ** The further properties on the sample inputs *)

Lemma uniqueIds_sampleWorld : uniqueIds (heap sampleWorld).
Proof.
  intros l1 l2 r1 r2 Hr1 Hr2 Hid. unfold sampleWorld in Hr1, Hr2.
  cbn [heap] in Hr1, Hr2. rewrite !lookup_insert, lookup_empty in Hr1, Hr2.
  repeat case_decide; simplify_eq; try reflexivity; vm_compute in Hid; discriminate.
Qed.

Lemma uniqueIds_cappedWorld : uniqueIds (heap cappedWorld).
Proof.
  intros l1 l2 r1 r2 Hr1 Hr2 Hid. unfold cappedWorld in Hr1, Hr2.
  cbn [heap] in Hr1, Hr2. rewrite !lookup_insert, lookup_empty in Hr1, Hr2.
  repeat case_decide; simplify_eq; reflexivity.
Qed.

Lemma NoDup_sample_rules : NoDup [0%nat; 1%nat; 2%nat].
Proof. apply NoDup_ListNoDup. repeat constructor; simpl; lia. Qed.

Lemma activated_rules_are_justified_witness :
  let result :=
    (processRules sampleValues sampleRandom sampleWorld [0%nat; 1%nat; 2%nat]
       (sampleContext 1)).1 in
  ActivationResult.activatedRules result <> []
  /\ Forall (fun a =>
       exists rule,
         heap sampleWorld !! ActivatedRule.rule a = Some rule
         /\ ActivatedRule.rule a ∈ [0%nat; 1%nat; 2%nat]
         /\ CustomRule.isActive rule = true
         /\ (forall p, CustomRule.probability rule = Some p -> 0 < p)
         /\ JS.nonEmpty (collectScanText rule (sampleContext 1)) = true
         /\ LogicResult.activated (logicResultOf sampleValues rule (sampleContext 1)) = true
         /\ ActivatedRule.activationReason a
            = LogicResult.reason (logicResultOf sampleValues rule (sampleContext 1))
         /\ ActivatedRule.matchedKeywords a
            = LogicResult.matchedKeywords
                (logicResultOf sampleValues rule (sampleContext 1))
         /\ ActivatedRule.tokenCost a = tokenCostOf rule
         /\ ActivatedRule.priority a = JS.orNum (CustomRule.order rule) 0)
       (ActivationResult.activatedRules result).
Proof.
  intros result. split.
  - vm_compute. discriminate.
  - apply Forall_forall. intros a Ha.
    exact (activated_rules_are_justified sampleValues sampleRandom sampleWorld
             [0%nat; 1%nat; 2%nat] (sampleContext 1) a Ha).
Defined.

Lemma reached_cap_blocks_activation_witness :
  (heap cappedWorld !! 0%nat = Some cappedRule
   /\ CustomRule.maxActivationsPerTurn cappedRule = Some 1
   /\ 1 <= Z.of_nat (countTurn (currentTurnOf (sampleContext 4))
                       (activationHistory cappedWorld !! CustomRule.id cappedRule)))
  /\ (0%nat ∉ map ActivatedRule.rule
               (ActivationResult.activatedRules
                  (processRules sampleValues sampleRandom cappedWorld [0%nat]
                     (sampleContext 4)).1)).
Proof.
  assert (heap cappedWorld !! 0%nat = Some cappedRule) as H0 by (vm_compute; reflexivity).
  assert (1 <= Z.of_nat (countTurn (currentTurnOf (sampleContext 4))
                           (activationHistory cappedWorld !! CustomRule.id cappedRule)))
    as Hc by (vm_compute; discriminate).
  split; [by repeat split|].
  apply (reached_cap_blocks_activation sampleValues sampleRandom cappedWorld [0%nat]
           (sampleContext 4) 0%nat cappedRule 1 H0 eq_refl); [lia|exact Hc].
Defined.

Lemma cap_is_never_exceeded_witness :
  (heap cappedWorld !! 0%nat = Some cappedRule
   /\ CustomRule.maxActivationsPerTurn cappedRule = Some 1)
  /\ Z.of_nat (countTurn (currentTurnOf (sampleContext 5))
                 (activationHistory
                    (processRules sampleValues sampleRandom cappedWorld [0%nat; 0%nat]
                       (sampleContext 5)).2
                  !! CustomRule.id cappedRule))
     <= Z.max 1 (Z.of_nat (countTurn (currentTurnOf (sampleContext 5))
                             (activationHistory cappedWorld !! CustomRule.id cappedRule))).
Proof.
  assert (heap cappedWorld !! 0%nat = Some cappedRule) as H0 by (vm_compute; reflexivity).
  split; [by split|].
  apply (cap_is_never_exceeded sampleValues sampleRandom cappedWorld [0%nat; 0%nat]
           (sampleContext 5) 0%nat cappedRule 1 uniqueIds_cappedWorld H0 eq_refl). lia.
Defined.

Lemma no_text_no_activation_witness :
  let result :=
    (processRules sampleValues sampleRandom sampleWorld [0%nat; 1%nat; 2%nat]
       silentContext).1 in
  let w' :=
    (processRules sampleValues sampleRandom sampleWorld [0%nat; 1%nat; 2%nat]
       silentContext).2 in
  collectScanText R1 silentContext = EmptyString
  /\ ActivationResult.activatedRules result = []
  /\ ActivationResult.totalTokens result = 0
  /\ heap w' = heap sampleWorld
  /\ activationHistory w' = activationHistory sampleWorld
  /\ formatForPrompt (heap w') result = EmptyString.
Proof.
  split; [reflexivity|].
  apply (no_text_no_activation sampleValues sampleRandom sampleWorld
           [0%nat; 1%nat; 2%nat] silentContext).
  intros l rule _ _. apply collectScanText_no_sources; reflexivity.
Defined.

Lemma random_is_irrelevant_without_probabilities_witness :
  neverDraws R1 = true
  /\ processRules sampleValues sampleRandom sampleWorld [0%nat; 1%nat; 2%nat]
       (sampleContext 1)
     = processRules sampleValues (fun _ => QArith_base.Qmake 0 1) sampleWorld
         [0%nat; 1%nat; 2%nat] (sampleContext 1)
  /\ draws (processRules sampleValues sampleRandom sampleWorld [0%nat; 1%nat; 2%nat]
              (sampleContext 1)).2
     = draws sampleWorld.
Proof.
  split; [reflexivity|].
  apply (random_is_irrelevant_without_probabilities sampleValues sampleRandom
           (fun _ => QArith_base.Qmake 0 1) sampleWorld [0%nat; 1%nat; 2%nat]
           (sampleContext 1)).
  intros l rule Hl. unfold sampleWorld in Hl. cbn [heap] in Hl.
  rewrite !lookup_insert, lookup_empty in Hl.
  repeat case_decide; simplify_eq; reflexivity.
Defined.

Lemma AND_ALL_needs_every_keyword_witness :
  let found := keywordFoundFor allRule (sampleContext 1)
                 (collectScanText allRule (sampleContext 1)) in
  (logicOf sampleValues allRule = AND_ALL
   /\ JS.truthy (CustomRule.alwaysActive allRule) = false)
  /\ (LogicResult.activated (logicResultOf sampleValues allRule (sampleContext 1)) = true
      <-> configuredKeywords allRule <> []
          /\ forall keyword, keyword ∈ configuredKeywords allRule -> found keyword = true)
  /\ ((exists keyword,
         keyword ∈ configuredKeywords allRule /\ JS.trim keyword = EmptyString) ->
      LogicResult.activated (logicResultOf sampleValues allRule (sampleContext 1)) = false).
Proof.
  split; [split; reflexivity|].
  apply (AND_ALL_needs_every_keyword sampleValues allRule (sampleContext 1)); reflexivity.
Defined.

Lemma NOT_ANY_needs_no_keyword_witness :
  let found := keywordFoundFor noneRule (sampleContext 1)
                 (collectScanText noneRule (sampleContext 1)) in
  (logicOf sampleValues noneRule = NOT_ANY
   /\ JS.truthy (CustomRule.alwaysActive noneRule) = false)
  /\ (LogicResult.activated (logicResultOf sampleValues noneRule (sampleContext 1)) = true
      <-> configuredKeywords noneRule <> []
          /\ forall keyword, keyword ∈ configuredKeywords noneRule -> found keyword = false).
Proof.
  split; [split; reflexivity|].
  apply (NOT_ANY_needs_no_keyword sampleValues noneRule (sampleContext 1)); reflexivity.
Defined.

Lemma AND_ANY_needs_one_keyword_witness :
  let found := keywordFoundFor R1 (sampleContext 1)
                 (collectScanText R1 (sampleContext 1)) in
  (logicOf sampleValues R1 = AND_ANY
   /\ JS.truthy (CustomRule.alwaysActive R1) = false)
  /\ (LogicResult.activated (logicResultOf sampleValues R1 (sampleContext 1)) = true
      <-> exists keyword, keyword ∈ configuredKeywords R1 /\ found keyword = true).
Proof.
  split; [split; reflexivity|].
  apply (AND_ANY_needs_one_keyword sampleValues R1 (sampleContext 1)); reflexivity.
Defined.

Lemma NOT_ALL_needs_found_and_missing_witness :
  let found := keywordFoundFor partialRule (sampleContext 1)
                 (collectScanText partialRule (sampleContext 1)) in
  (logicOf sampleValues partialRule = NOT_ALL
   /\ JS.truthy (CustomRule.alwaysActive partialRule) = false)
  /\ (LogicResult.activated (logicResultOf sampleValues partialRule (sampleContext 1)) = true
      <-> (exists keyword, keyword ∈ configuredKeywords partialRule /\ found keyword = true)
          /\ (exists keyword,
                keyword ∈ configuredKeywords partialRule /\ found keyword = false)).
Proof.
  split; [split; reflexivity|].
  apply (NOT_ALL_needs_found_and_missing sampleValues partialRule (sampleContext 1));
    reflexivity.
Defined.

Lemma history_entries_are_never_empty_witness :
  let w' :=
    (processRules sampleValues sampleRandom cappedWorld [0%nat] (sampleContext 5)).2 in
  entriesNonEmpty (activationHistory cappedWorld)
  /\ entriesNonEmpty (activationHistory w')
  /\ Stats.totalRules (getStats w') = Stats.activeRules (getStats w')
  /\ (Stats.totalRules (getStats cappedWorld) <= Stats.totalRules (getStats w'))%nat
  /\ ((0 < Stats.activeRules (getStats w'))%nat ->
      QArith_base.Qle (QArith_base.Qmake 1 1) (Stats.averageActivations (getStats w'))).
Proof.
  assert (entriesNonEmpty (activationHistory cappedWorld)) as Hne.
  { intros k history Hk. unfold cappedWorld in Hk. cbn [activationHistory] in Hk.
    rewrite lookup_insert, lookup_empty in Hk. case_decide; simplify_eq. discriminate. }
  split; [exact Hne|].
  exact (history_entries_are_never_empty sampleValues sampleRandom cappedWorld [0%nat]
           (sampleContext 5) Hne).
Defined.

Lemma fresh_turn_never_hits_a_cap_witness :
  (uniqueIds (heap sampleWorld) /\ NoDup [0%nat; 1%nat; 2%nat]
   /\ forall k, countTurn (currentTurnOf (sampleContext 1))
                  (activationHistory sampleWorld !! k) = 0%nat)
  /\ exists new,
       console (processRules sampleValues sampleRandom sampleWorld [0%nat; 1%nat; 2%nat]
                  (sampleContext 1)).2
       = console sampleWorld ++ new
       /\ Forall (fun e => outcome e <> SkippedLimit) new.
Proof.
  assert (forall k, countTurn (currentTurnOf (sampleContext 1))
                      (activationHistory sampleWorld !! k) = 0%nat) as Hfresh.
  { intros k. unfold sampleWorld. cbn [activationHistory]. rewrite lookup_empty.
    reflexivity. }
  split; [split; [exact uniqueIds_sampleWorld|split; [exact NoDup_sample_rules|exact Hfresh]]|].
  exact (fresh_turn_never_hits_a_cap sampleValues sampleRandom sampleWorld
           [0%nat; 1%nat; 2%nat] (sampleContext 1) uniqueIds_sampleWorld
           NoDup_sample_rules Hfresh).
Defined.

Lemma prompt_holds_every_activated_rule_witness :
  let result :=
    (processRules sampleValues sampleRandom sampleWorld [0%nat; 1%nat; 2%nat]
       (sampleContext 1)).1 in
  let h :=
    heap (processRules sampleValues sampleRandom sampleWorld [0%nat; 1%nat; 2%nat]
            (sampleContext 1)).2 in
  let a := hd (ActivatedRule.mk 0%nat EmptyString [] 0 0)
             (ActivationResult.activatedRules result) in
  let rule := CustomRule.setMetadata 1 1 R1 in
  (a ∈ ActivationResult.activatedRules result /\ h !! ActivatedRule.rule a = Some rule)
  /\ String.prefix (LF +:+ "=== " +:+ HEADER_WORDS +:+ " ===" +:+ LF)
       (formatForPrompt h result) = true
  /\ JS.includes (formatForPrompt h result) (LF +:+ CustomRule.content rule +:+ LF) = true
  /\ JS.includes (formatForPrompt h result)
       ("[" +:+ JS.orStr (CustomRule.title rule)
                  (RULE_WORD +:+ " " +:+ CustomRule.id rule)
        +:+ "] (" +:+ PRIORITY_WORDS +:+ ": "
        +:+ pretty (JS.orNum (CustomRule.order rule) 0) +:+ ")") = true.
Proof.
  intros result h a rule.
  assert (a ∈ ActivationResult.activatedRules result) as Ha by (vm_compute; left).
  assert (h !! ActivatedRule.rule a = Some rule) as Hr by (vm_compute; reflexivity).
  split; [by split|].
  exact (prompt_holds_every_activated_rule h result a rule Ha Hr).
Defined.

Lemma only_the_budget_stops_an_open_rule_witness :
  let result :=
    (processRules sampleValues sampleRandom sampleWorld [1%nat; 0%nat] (sampleContext 1)).1 in
  let w' :=
    (processRules sampleValues sampleRandom sampleWorld [1%nat; 0%nat] (sampleContext 1)).2 in
  (heap sampleWorld !! 1%nat = Some R2
   /\ CustomRule.isActive R2 = true
   /\ CustomRule.maxActivationsPerTurn R2 = None
   /\ CustomRule.probability R2 = None
   /\ logicActivates sampleValues R2 (sampleContext 1) = true)
  /\ (1%nat ∈ map ActivatedRule.rule (ActivationResult.activatedRules result)
      \/ (1%nat ∈ ActivationResult.skippedRules result
          /\ exists new, console w' = console sampleWorld ++ new
                         /\ Logged 1%nat SkippedBudget ∈ new)).
Proof.
  assert (heap sampleWorld !! 1%nat = Some R2) as H1 by (vm_compute; reflexivity).
  assert (logicActivates sampleValues R2 (sampleContext 1) = true) as Hlogic
    by (vm_compute; reflexivity).
  split; [by repeat split|].
  assert (1%nat ∈ [1%nat; 0%nat]) as Hin by left.
  exact (only_the_budget_stops_an_open_rule sampleValues sampleRandom sampleWorld
           [1%nat; 0%nat] (sampleContext 1) 1%nat R2 Hin H1 eq_refl eq_refl eq_refl
           Hlogic).
Defined.

